(** * Client-side resilience utilities of the dispatch console

    A shallow embedding of [src/utils/rateLimiter.ts] (RateLimiter,
    withRateLimit, retryWithBackoff, CircuitBreaker), of the retry helper and
    error classifier of [utils/errorHandler] (handleApiError, withRetry), of
    the rate-limited send of [services/api.ts] and of the Captcha widget.

    Conventions.
    - [Date.now()] is an input: every read of the clock in the source is one
      [Z] argument (milliseconds), in the order the source reads them.
    - A promise that settles is an [Outcome]: resolved with a value or
      rejected with the thrown value.
    - An operation passed in by the caller ([fn], [operation]) is a state
      transformer on a world [W] chosen by the caller; every call of it leaves
      an [Invoked] event in the trace, every [setTimeout] wait a [Slept].
    - [localStorage] is a finite map from keys to strings.
    - JavaScript numbers that the code treats as counters, statuses and
      timestamps are integers ([Z]); [Math.random()] draws are rationals. *)

From Stdlib Require Import ZArith QArith Qround Ascii String List Lia.
From stdpp Require Import base decidable option list gmap strings pretty fin_maps.

Import ListNotations.
Local Open Scope Z_scope.
Local Open Scope string_scope.

(** ** Promises, events, JavaScript values *)

Inductive Outcome (E A : Type) : Type :=
  | Resolved (a : A)
  | Rejected (e : E).
Arguments Resolved {E A} a.
Arguments Rejected {E A} e.

Inductive Event : Type :=
  | Invoked
  | Slept (ms : Q).

Definition is_invoked (ev : Event) : bool :=
  match ev with Invoked => true | Slept _ => false end.

Definition invocations (tr : list Event) : nat :=
  length (List.filter is_invoked tr).

(** The values the key generators and the error classifier look at. *)
#[local] Set Warnings "-register-all".
Inductive JsValue : Type :=
  | JsUndefined
  | JsNull
  | JsBool (b : bool)
  | JsNumber (n : Z)
  | JsString (s : string)
  | JsObject (fields : list (string * JsValue))
  | JsArray (items : list JsValue).

(** ToBoolean, as used by [||], [?:] and [!]. *)
Definition truthy (v : JsValue) : bool :=
  match v with
  | JsUndefined | JsNull => false
  | JsBool b => b
  | JsNumber n => negb (Z.eqb n 0)
  | JsString s => negb (String.eqb s "")
  | JsObject _ | JsArray _ => true
  end.

(** [a || b] *)
Definition js_or (a b : JsValue) : JsValue := if truthy a then a else b.

(** ToString, as applied by a template literal. *)
Fixpoint js_to_string (v : JsValue) : string :=
  match v with
  | JsUndefined => "undefined"
  | JsNull => "null"
  | JsBool true => "true"
  | JsBool false => "false"
  | JsNumber n => pretty n
  | JsString s => s
  | JsObject _ => "[object Object]"
  | JsArray items =>
      String.concat ","
        (List.map (fun x => match x with
                            | JsUndefined | JsNull => ""
                            | _ => js_to_string x
                            end) items)
  end.

Inductive JsExn : Type :=
  | TypeError
  | SyntaxError.

Fixpoint assoc_get (k : string) (fs : list (string * JsValue)) : JsValue :=
  match fs with
  | [] => JsUndefined
  | (k', v) :: rest => if String.eqb k k' then v else assoc_get k rest
  end.

(** [v.name]: a TypeError on null and undefined, the own field of an object,
    undefined for a field a value does not have. *)
Definition get_prop (v : JsValue) (name : string) : Outcome JsExn JsValue :=
  match v with
  | JsUndefined | JsNull => Rejected TypeError
  | JsObject fs => Resolved (assoc_get name fs)
  | _ => Resolved JsUndefined
  end.

(** [args[i]] *)
Definition js_index (args : list JsValue) (i : nat) : JsValue :=
  nth i args JsUndefined.

Abbreviation LocalStorage := (gmap string string).

(** [localStorage.getItem(k)]: the stored string, or null. *)
Definition getItem (ls : LocalStorage) (k : string) : JsValue :=
  match ls !! k with
  | Some s => JsString s
  | None => JsNull
  end.

Definition removeItem (k : string) (ls : LocalStorage) : LocalStorage :=
  delete k ls.

(** ** RateLimiter *)

Record RateLimitEntry : Type := mkEntry {
  count : Z;
  resetTime : Z
}.

Record RateLimitConfig : Type := mkConfig {
  maxRequests : Z;
  windowMs : Z;
  keyGenerator : option (list JsValue -> LocalStorage -> Outcome JsExn string)
}.

Abbreviation Limits := (gmap string RateLimitEntry).

Definition getKey (cfg : RateLimitConfig) (args : list JsValue)
    (ls : LocalStorage) : Outcome JsExn string :=
  match keyGenerator cfg with
  | Some gen => gen args ls
  | None => Resolved "default"
  end.

Definition expired (now : Z) (entry : RateLimitEntry) : bool :=
  now >? resetTime entry.

(** [cleanup]: every entry whose reset time has passed is deleted. *)
Definition cleanup (now : Z) (limits : Limits) : Limits :=
  filter (fun kv => expired now (snd kv) = false) limits.

Definition fresh_entry (cfg : RateLimitConfig) (now : Z) : RateLimitEntry :=
  mkEntry 1 (now + windowMs cfg).

(** [isAllowed]. [tsweep] is the clock read of [cleanup], [now] the read
    that follows the key derivation. A throwing key generator leaves the
    swept map behind. *)
Definition isAllowed (cfg : RateLimitConfig) (args : list JsValue)
    (ls : LocalStorage) (tsweep now : Z) (limits : Limits)
    : Outcome JsExn bool * Limits :=
  let swept := cleanup tsweep limits in
  match getKey cfg args ls with
  | Rejected exn => (Rejected exn, swept)
  | Resolved key =>
      match swept !! key with
      | None => (Resolved true, <[key := fresh_entry cfg now]> swept)
      | Some entry =>
          if expired now entry then
            (Resolved true, <[key := fresh_entry cfg now]> swept)
          else if count entry >=? maxRequests cfg then
            (Resolved false, swept)
          else
            (Resolved true,
             <[key := mkEntry (count entry + 1) (resetTime entry)]> swept)
      end
  end.

Definition getRemainingTime (cfg : RateLimitConfig) (args : list JsValue)
    (ls : LocalStorage) (now : Z) (limits : Limits) : Outcome JsExn Z :=
  match getKey cfg args ls with
  | Rejected exn => Rejected exn
  | Resolved key =>
      match limits !! key with
      | None => Resolved 0
      | Some entry =>
          if expired now entry then Resolved 0
          else Resolved (resetTime entry - now)
      end
  end.

Definition getRemainingRequests (cfg : RateLimitConfig) (args : list JsValue)
    (ls : LocalStorage) (now : Z) (limits : Limits) : Outcome JsExn Z :=
  match getKey cfg args ls with
  | Rejected exn => Rejected exn
  | Resolved key =>
      match limits !! key with
      | None => Resolved (maxRequests cfg)
      | Some entry =>
          if expired now entry then Resolved (maxRequests cfg)
          else Resolved (Z.max 0 (maxRequests cfg - count entry))
      end
  end.

(** One call of [isAllowed] as the page makes it: the arguments, the storage
    the key generator sees, and the two clock reads. *)
Record Call : Type := mkCall {
  c_args : list JsValue;
  c_ls : LocalStorage;
  c_sweep : Z;
  c_now : Z
}.

Definition call_key (cfg : RateLimitConfig) (c : Call) : Outcome JsExn string :=
  getKey cfg (c_args c) (c_ls c).

Definition step (cfg : RateLimitConfig) (c : Call) (limits : Limits)
    : Outcome JsExn bool * Limits :=
  isAllowed cfg (c_args c) (c_ls c) (c_sweep c) (c_now c) limits.

(** A sequence of calls on one limiter, oldest first. *)
Fixpoint run (cfg : RateLimitConfig) (cs : list Call) (limits : Limits)
    : list (Outcome JsExn bool) * Limits :=
  match cs with
  | [] => ([], limits)
  | c :: rest =>
      let '(r, limits1) := step cfg c limits in
      let '(rs, limits2) := run cfg rest limits1 in
      (r :: rs, limits2)
  end.

Definition admitted (r : Outcome JsExn bool) : bool :=
  match r with Resolved true => true | _ => false end.

Definition has_key (cfg : RateLimitConfig) (k : string) (c : Call) : bool :=
  match call_key cfg c with
  | Resolved k' => String.eqb k' k
  | Rejected _ => false
  end.

(** Admissions of key [k] among the calls whose clock is at most [bound]. *)
Fixpoint admissions (cfg : RateLimitConfig) (k : string) (bound : Z)
    (cs : list Call) (limits : Limits) : nat :=
  match cs with
  | [] => 0%nat
  | c :: rest =>
      let '(r, limits1) := step cfg c limits in
      ((if admitted r && has_key cfg k c && Z.leb (c_now c) bound
        then 1 else 0) + admissions cfg k bound rest limits1)%nat
  end.

(** The clock never runs backwards: within a call and from call to call. *)
Fixpoint chronological (t : Z) (cs : list Call) : Prop :=
  match cs with
  | [] => True
  | c :: rest => t <= c_sweep c /\ c_sweep c <= c_now c /\ chronological (c_now c) rest
  end.

Definition plain (N W : Z) : RateLimitConfig := mkConfig N W None.

Definition at_time (t : Z) : Call := mkCall [] ∅ t t.


(** No active entry for [k] when call [c] is made: nothing stored, or the
    stored window has run out by one of the call's clock reads. *)
Definition idle (k : string) (c : Call) (m : Limits) : Prop :=
  match m !! k with
  | None => True
  | Some e => expired (c_sweep c) e = true \/ expired (c_now c) e = true
  end.

(** ** Thrown values *)

(** What a wrapper of this module can reject with: an unassigned variable
    thrown as it is, [new Error(message)], an exception of the runtime, or
    whatever the caller's own operation rejected with. *)
Inductive Thrown (E : Type) : Type :=
  | ThrownUndefined
  | ThrownError (message : string)
  | ThrownExn (exn : JsExn)
  | ThrownBy (e : E).
Arguments ThrownUndefined {E}.
Arguments ThrownError {E} message.
Arguments ThrownExn {E} exn.
Arguments ThrownBy {E} e.

(** [throw lastError] for a variable declared without a value. *)
Definition throw_last {E : Type} (lastError : option E) : Thrown E :=
  match lastError with
  | Some e => ThrownBy e
  | None => ThrownUndefined
  end.

(** ** withRateLimit *)

(** [Math.ceil(x / 1000)] on an integer [x]. *)
Definition ceil_seconds (x : Z) : Z := - ((- x) / 1000).

Definition rate_limit_message (errorMessage : string) (seconds : Z) : string :=
  errorMessage ++ " Try again in " ++ pretty seconds ++ " seconds.".

Definition default_rate_limit_message : string :=
  "Rate limit exceeded. Please try again later.".

(** The wrapped function. [c] carries the arguments, the storage and the two
    clock reads of [isAllowed]; [tremain] is the clock read of
    [getRemainingTime], made only after a rejection. *)
Definition withRateLimit {W E A : Type}
    (fn : list JsValue -> W -> Outcome E A * W)
    (cfg : RateLimitConfig) (errorMessage : string)
    (c : Call) (tremain : Z) (limits : Limits) (w : W)
    : Outcome (Thrown E) A * Limits * W * list Event :=
  match step cfg c limits with
  | (Rejected exn, limits1) => (Rejected (ThrownExn exn), limits1, w, [])
  | (Resolved false, limits1) =>
      match getRemainingTime cfg (c_args c) (c_ls c) tremain limits1 with
      | Rejected exn => (Rejected (ThrownExn exn), limits1, w, [])
      | Resolved remainingTime =>
          let seconds := ceil_seconds remainingTime in
          (Rejected (ThrownError (rate_limit_message errorMessage seconds)),
           limits1, w, [])
      end
  | (Resolved true, limits1) =>
      match fn (c_args c) w with
      | (Resolved a, w1) => (Resolved a, limits1, w1, [Invoked])
      | (Rejected e, w1) => (Rejected (ThrownBy e), limits1, w1, [Invoked])
      end
  end.

(** ** retryWithBackoff *)

(** [baseDelay * Math.pow(2, attempt - 1) + Math.random() * 1000] *)
Definition backoff_delay (baseDelay attempt : Z) (random : Q) : Q :=
  Qplus (inject_Z (baseDelay * 2 ^ (attempt - 1))) (Qmult random (inject_Z 1000)).

(** The [for] loop, by the number of iterations it has left: [remaining] is
    zero exactly when [attempt <= maxRetries] fails. [rnd attempt] is the
    [Math.random()] draw made after the failure of that attempt. *)
Fixpoint retry_loop {W E A : Type} (fn : W -> Outcome E A * W)
    (maxRetries baseDelay : Z) (rnd : Z -> Q)
    (remaining : nat) (attempt : Z) (lastError : option E) (w : W)
    : Outcome (Thrown E) A * W * list Event :=
  match remaining with
  | O => (Rejected (throw_last lastError), w, [])
  | S remaining' =>
      match fn w with
      | (Resolved a, w1) => (Resolved a, w1, [Invoked])
      | (Rejected e, w1) =>
          if Z.eqb attempt maxRetries then
            (Rejected (throw_last (Some e)), w1, [Invoked])
          else
            let delay := backoff_delay baseDelay attempt (rnd attempt) in
            let '(r, w2, tr) :=
              retry_loop fn maxRetries baseDelay rnd remaining'
                         (attempt + 1) (Some e) w1 in
            (r, w2, Invoked :: Slept delay :: tr)
      end
  end.

Definition retryWithBackoff {W E A : Type} (fn : W -> Outcome E A * W)
    (maxRetries baseDelay : Z) (rnd : Z -> Q) (w : W)
    : Outcome (Thrown E) A * W * list Event :=
  retry_loop fn maxRetries baseDelay rnd (Z.to_nat maxRetries) 1 None w.

(** ** The pre-configured limiters and the rate-limited send *)

Section Limiters.
(** [JSON.parse], a built-in: a value, or a SyntaxError. *)
Variable JSON_parse : string -> Outcome JsExn JsValue.

(** [localStorage.getItem('user')
       ? JSON.parse(localStorage.getItem('user')!).userId : 'anonymous'] *)
Definition stored_userId (ls : LocalStorage) : Outcome JsExn JsValue :=
  if truthy (getItem ls "user") then
    match JSON_parse (js_to_string (getItem ls "user")) with
    | Resolved user => get_prop user "userId"
    | Rejected exn => Rejected exn
    end
  else Resolved (JsString "anonymous").

Definition message_keyGenerator (args : list JsValue) (ls : LocalStorage)
    : Outcome JsExn string :=
  match stored_userId ls with
  | Rejected exn => Rejected exn
  | Resolved userId =>
      let operation := js_or (js_index args 0) (JsString "default") in
      Resolved (js_to_string userId ++ "-" ++ js_to_string operation)
  end.

Definition fileUpload_keyGenerator (args : list JsValue) (ls : LocalStorage)
    : Outcome JsExn string :=
  match stored_userId ls with
  | Rejected exn => Rejected exn
  | Resolved userId => Resolved (js_to_string userId ++ "-file-upload")
  end.

Definition messageRateLimiter : RateLimitConfig :=
  mkConfig 5 30000 (Some message_keyGenerator).

Definition fileUploadRateLimiter : RateLimitConfig :=
  mkConfig 3 60000 (Some fileUpload_keyGenerator).

(** The body wrapped by [sendSingleDocument]: the form is filled from the
    request and posted under the exponential retrier, three attempts from
    a base delay of one second. [post] stands for the axios call. *)
Definition single_form (data : JsValue) : Outcome JsExn JsValue :=
  match data with
  | JsUndefined | JsNull => Rejected TypeError
  | _ =>
      let field name :=
        match get_prop data name with
        | Resolved v => v
        | Rejected _ => JsUndefined
        end in
      Resolved (JsObject [("to", field "to");
                          ("department", field "department");
                          ("scheduledDate", field "scheduledDate");
                          ("scheduledTime", field "scheduledTime");
                          ("documentFile", field "pdfFile")])
  end.

Definition single_send_body {W E A : Type}
    (post : string -> JsValue -> W -> Outcome E A * W) (rnd : Z -> Q)
    (args : list JsValue) (st : W * list Event)
    : Outcome (Thrown E) A * (W * list Event) :=
  match single_form (js_index args 0) with
  | Rejected exn => (Rejected (ThrownExn exn), st)
  | Resolved formData =>
      let '(r, w1, tr) :=
        retryWithBackoff (post "/send/single-document" formData)
                         3 1000 rnd (fst st) in
      (r, (w1, (snd st ++ tr)%list))
  end.

Definition single_message_text : string :=
  "Too many single message requests. Please wait before sending another message.".

Definition sendSingleDocument {W E A : Type}
    (post : string -> JsValue -> W -> Outcome E A * W) (rnd : Z -> Q)
    (c : Call) (tremain : Z) (limits : Limits) (st : W * list Event)
    : Outcome (Thrown (Thrown E)) A * Limits * (W * list Event) * list Event :=
  withRateLimit (single_send_body post rnd) messageRateLimiter
                single_message_text c tremain limits st.

End Limiters.

(** ** CircuitBreaker *)

Inductive BreakerState : Type := CLOSED | OPEN | HALF_OPEN.

Record CircuitBreaker : Type := mkBreaker {
  failureCount : Z;
  lastFailureTime : Z;
  state : BreakerState;
  threshold : Z;
  timeout : Z;
  resetTimeout : Z
}.

Definition new_CircuitBreaker (threshold timeout resetTimeout : Z) : CircuitBreaker :=
  mkBreaker 0 0 CLOSED threshold timeout resetTimeout.

Definition apiCircuitBreaker : CircuitBreaker := new_CircuitBreaker 5 60000 30000.

Definition set_state (s : BreakerState) (cb : CircuitBreaker) : CircuitBreaker :=
  mkBreaker (failureCount cb) (lastFailureTime cb) s
            (threshold cb) (timeout cb) (resetTimeout cb).

Definition onSuccess (cb : CircuitBreaker) : CircuitBreaker :=
  mkBreaker 0 (lastFailureTime cb) CLOSED
            (threshold cb) (timeout cb) (resetTimeout cb).

Definition onFailure (now : Z) (cb : CircuitBreaker) : CircuitBreaker :=
  let n := failureCount cb + 1 in
  mkBreaker n now
            (if n >=? threshold cb then OPEN else state cb)
            (threshold cb) (timeout cb) (resetTimeout cb).

(** The check at the head of [execute]: the breaker as the operation will
    find it, or nothing when the call is turned away. *)
Definition gate (cb : CircuitBreaker) (now : Z) : option CircuitBreaker :=
  match state cb with
  | OPEN =>
      if now - lastFailureTime cb >? resetTimeout cb
      then Some (set_state HALF_OPEN cb)
      else None
  | _ => Some cb
  end.

Definition circuit_open_message : string := "Circuit breaker is OPEN".

(** [execute]. [now] is the clock read of the check, [tfail] the read of
    [onFailure], made after the operation has settled. *)
Definition execute {W E A : Type} (cb : CircuitBreaker)
    (fn : W -> Outcome E A * W) (now tfail : Z) (w : W)
    : Outcome (Thrown E) A * CircuitBreaker * W * list Event :=
  match gate cb now with
  | None => (Rejected (ThrownError circuit_open_message), cb, w, [])
  | Some cb1 =>
      match fn w with
      | (Resolved a, w1) => (Resolved a, onSuccess cb1, w1, [Invoked])
      | (Rejected e, w1) => (Rejected (ThrownBy e), onFailure tfail cb1, w1, [Invoked])
      end
  end.

(** One [execute] call of a sequence: the operation and the two clock reads. *)
Record Exec (W E A : Type) : Type := mkExec {
  x_fn : W -> Outcome E A * W;
  x_now : Z;
  x_tfail : Z
}.
Arguments mkExec {W E A} x_fn x_now x_tfail.
Arguments x_fn {W E A} e.
Arguments x_now {W E A} e.
Arguments x_tfail {W E A} e.

Definition exec1 {W E A : Type} (x : Exec W E A) (cb : CircuitBreaker) (w : W)
    : Outcome (Thrown E) A * CircuitBreaker * W * list Event :=
  execute cb (x_fn x) (x_now x) (x_tfail x) w.

(** Calls made one after the other on the same breaker. *)
Fixpoint execute_all {W E A : Type} (xs : list (Exec W E A))
    (cb : CircuitBreaker) (w : W)
    : list (Outcome (Thrown E) A) * CircuitBreaker * W :=
  match xs with
  | [] => ([], cb, w)
  | x :: rest =>
      let '(r, cb1, w1, _) := exec1 x cb w in
      let '(rs, cb2, w2) := execute_all rest cb1 w1 in
      (r :: rs, cb2, w2)
  end.

Definition is_rejected {E A : Type} (r : Outcome E A) : bool :=
  match r with Rejected _ => true | Resolved _ => false end.

(** What holds of a breaker between calls: the count is never negative, a
    closed breaker is below its threshold, an open one has reached it. *)
Definition breaker_ok (cb : CircuitBreaker) : Prop :=
  1 <= threshold cb /\
  match state cb with
  | CLOSED => 0 <= failureCount cb < threshold cb
  | OPEN => threshold cb <= failureCount cb
  | HALF_OPEN => False
  end.

(** ** Error classes and handleApiError *)

Inductive ErrorClass : Type :=
  | AppErrorClass
  | NetworkErrorClass
  | ValidationErrorClass
  | AuthenticationErrorClass
  | AuthorizationErrorClass
  | NotFoundErrorClass
  | ServerErrorClass
  | WhatsAppAPIErrorClass.

(** An [AppError] or an instance of one of its subclasses; [err_class] is
    what [instanceof] tests. *)
Record AppError : Type := mkAppError {
  err_class : ErrorClass;
  err_message : string;
  err_status : Z;
  err_code : JsValue;
  err_details : JsValue;
  err_requestId : JsValue;
  err_context : JsValue
}.

Definition NetworkError (message : string) (context : JsValue) : AppError :=
  mkAppError NetworkErrorClass message 0 (JsString "NETWORK_ERROR")
             JsNull JsUndefined context.

Definition ValidationError (message : string) (details context : JsValue) : AppError :=
  mkAppError ValidationErrorClass message 400 (JsString "VALIDATION_ERROR")
             details JsUndefined context.

Definition AuthenticationError (message : string) (context : JsValue) : AppError :=
  mkAppError AuthenticationErrorClass message 401 (JsString "AUTH_ERROR")
             JsNull JsUndefined context.

Definition AuthorizationError (message : string) (context : JsValue) : AppError :=
  mkAppError AuthorizationErrorClass message 403 (JsString "AUTHZ_ERROR")
             JsNull JsUndefined context.

Definition NotFoundError (message : string) (context : JsValue) : AppError :=
  mkAppError NotFoundErrorClass message 404 (JsString "NOT_FOUND")
             JsNull JsUndefined context.

Definition ServerError (message : string) (context : JsValue) : AppError :=
  mkAppError ServerErrorClass message 500 (JsString "SERVER_ERROR")
             JsNull JsUndefined context.

(** The response part of a caught error: [status], [data] and the
    [x-request-id] header. *)
Record RawResponse : Type := mkResponse {
  resp_status : Z;
  resp_data : JsValue;
  resp_requestId : JsValue
}.

(** A caught value, as far as the classifier reads it: [error.code],
    [error.message] and [error.response] when it is truthy. *)
Record RawError : Type := mkRaw {
  raw_code : JsValue;
  raw_message : JsValue;
  raw_response : option RawResponse
}.

(** [v === 'literal'] *)
Definition is_string (v : JsValue) (s : string) : bool :=
  match v with
  | JsString s' => String.eqb s' s
  | _ => false
  end.

(** [data?.name] *)
Definition opt_prop (data : JsValue) (name : string) : JsValue :=
  match get_prop data name with
  | Resolved v => v
  | Rejected _ => JsUndefined
  end.

(** [data?.message || fallback], as the message of the new error. *)
Definition message_or (data : JsValue) (fallback : string) : string :=
  js_to_string (js_or (opt_prop data "message") (JsString fallback)).

Definition details_of (data : JsValue) : JsValue :=
  js_or (opt_prop data "errors") (opt_prop data "details").

Definition clear_session (ls : LocalStorage) : LocalStorage :=
  removeItem "user" (removeItem "token" ls).

(** [handleApiError]: the classified error, and the storage after it (a 401
    clears the stored session). *)
Definition handleApiError (error : RawError) (context : JsValue)
    (ls : LocalStorage) : AppError * LocalStorage :=
  match raw_response error with
  | None =>
      if is_string (raw_code error) "NETWORK_ERROR"
         || is_string (raw_message error) "Network Error"
      then (NetworkError
              "Unable to connect to server. Please check your internet connection."
              context, ls)
      else (NetworkError "Network error occurred" context, ls)
  | Some resp =>
      let status := resp_status resp in
      let data := resp_data resp in
      let requestId := resp_requestId resp in
      if Z.eqb status 400 then
        (ValidationError (message_or data "Invalid request data")
                         (details_of data) context, ls)
      else if Z.eqb status 401 then
        (AuthenticationError (message_or data "Authentication required") context,
         clear_session ls)
      else if Z.eqb status 403 then
        (AuthorizationError (message_or data "Insufficient permissions") context, ls)
      else if Z.eqb status 404 then
        (NotFoundError (message_or data "Resource not found") context, ls)
      else if Z.eqb status 422 then
        (ValidationError (message_or data "Validation failed")
                         (details_of data) context, ls)
      else if Z.eqb status 429 then
        (mkAppError AppErrorClass "Too many requests. Please try again later."
                    429 (JsString "RATE_LIMIT") (opt_prop data "details")
                    requestId context, ls)
      else if Z.eqb status 500 || Z.eqb status 502
              || Z.eqb status 503 || Z.eqb status 504 then
        (ServerError (message_or data "Server error occurred") context, ls)
      else
        (mkAppError AppErrorClass
                    (message_or data "An unexpected error occurred")
                    status
                    (js_or (opt_prop data "code") (JsString "UNKNOWN_ERROR"))
                    (opt_prop data "details") requestId context, ls)
  end.

(** ** withRetry *)

Definition instanceof (e : AppError) (c : ErrorClass) : bool :=
  match err_class e, c with
  | AppErrorClass, AppErrorClass
  | NetworkErrorClass, NetworkErrorClass
  | ValidationErrorClass, ValidationErrorClass
  | AuthenticationErrorClass, AuthenticationErrorClass
  | AuthorizationErrorClass, AuthorizationErrorClass
  | NotFoundErrorClass, NotFoundErrorClass
  | ServerErrorClass, ServerErrorClass
  | WhatsAppAPIErrorClass, WhatsAppAPIErrorClass => true
  | _, AppErrorClass => true
  | _, _ => false
  end.

(** The condition of the "don't retry" branch. *)
Definition dont_retry (lastError : AppError) : bool :=
  instanceof lastError AuthenticationErrorClass
  || instanceof lastError AuthorizationErrorClass
  || instanceof lastError ValidationErrorClass
  || instanceof lastError NotFoundErrorClass
  || (negb (Z.eqb (err_status lastError) 0)
      && Z.geb (err_status lastError) 400 && Z.ltb (err_status lastError) 500).

(** The [for] loop of [withRetry], by the iterations it has left. The
    storage is threaded through the classifier. *)
Fixpoint withRetry_loop {W A : Type} (operation : W -> Outcome RawError A * W)
    (maxRetries delay : Z) (context : JsValue)
    (remaining : nat) (attempt : Z) (lastError : option AppError)
    (w : W) (ls : LocalStorage)
    : Outcome (Thrown AppError) A * W * LocalStorage * list Event :=
  match remaining with
  | O => (Rejected (throw_last lastError), w, ls, [])
  | S remaining' =>
      match operation w with
      | (Resolved a, w1) => (Resolved a, w1, ls, [Invoked])
      | (Rejected error, w1) =>
          let '(classified, ls1) := handleApiError error context ls in
          if dont_retry classified then
            (Rejected (throw_last (Some classified)), w1, ls1, [Invoked])
          else if Z.eqb attempt maxRetries then
            (Rejected (throw_last (Some classified)), w1, ls1, [Invoked])
          else
            let '(r, w2, ls2, tr) :=
              withRetry_loop operation maxRetries delay context remaining'
                             (attempt + 1) (Some classified) w1 ls1 in
            (r, w2, ls2, Invoked :: Slept (inject_Z (delay * attempt)) :: tr)
      end
  end.

Definition withRetry {W A : Type} (operation : W -> Outcome RawError A * W)
    (maxRetries delay : Z) (context : JsValue) (w : W) (ls : LocalStorage)
    : Outcome (Thrown AppError) A * W * LocalStorage * list Event :=
  withRetry_loop operation maxRetries delay context
                 (Z.to_nat maxRetries) 1 None w ls.

(** ** Captcha *)

Definition captcha_chars : string := "ABCDEFGHIJKLMNOPQRSTUVWXYZ0123456789".

(** [s.charAt(i)]: the empty string outside the string. *)
Definition charAt (s : string) (i : Z) : string :=
  if Z.ltb i 0 then ""
  else match String.get (Z.to_nat i) s with
       | Some ch => String ch EmptyString
       | None => ""
       end.

(** [Math.floor(Math.random() * chars.length)] for the draw [random]. *)
Definition random_index (random : Q) : Z :=
  Qfloor (Qmult random (inject_Z (Z.of_nat (String.length captcha_chars)))).

(** The loop of [generateCaptcha]: [todo] iterations left, counter [i];
    [rnd i] is the draw of iteration [i]. *)
Fixpoint generate_loop (rnd : nat -> Q) (todo i : nat) (result : string) : string :=
  match todo with
  | O => result
  | S todo' =>
      generate_loop rnd todo' (S i)
                    (result ++ charAt captcha_chars (random_index (rnd i)))
  end.

Definition generateCaptcha (rnd : nat -> Q) : string :=
  generate_loop rnd 5 0 "".

Record CaptchaState : Type := mkCaptcha {
  captchaCode : string;
  userInput : string;
  isValid : bool;
  error : string
}.

Definition captcha_initial : CaptchaState := mkCaptcha "" "" false "".

Section CaptchaWidget.
(** [String.prototype.toUpperCase], a built-in. *)
Variable toUpperCase : string -> string.

Definition isValidInput (st : CaptchaState) : bool :=
  String.eqb (toUpperCase (userInput st)) (toUpperCase (captchaCode st))
  && Nat.eqb (String.length (userInput st)) (String.length (captchaCode st)).

(** The validation effect: the state it sets and the value it hands to
    [onVerify]. *)
Definition validation_effect (st : CaptchaState) : CaptchaState * bool :=
  let v := isValidInput st in
  (mkCaptcha (captchaCode st) (userInput st) v
             (if negb (String.eqb (userInput st) "") && negb v
              then "CAPTCHA code does not match" else ""),
   v).


Definition handleInputChange (value : string) (st : CaptchaState) : CaptchaState :=
  mkCaptcha (captchaCode st) value (isValid st) (error st).

(** The dependency list [userInput, captchaCode, onVerify] of the effect. *)
Definition deps_changed (old new : CaptchaState) (onVerify_changed : bool) : bool :=
  negb (String.eqb (userInput old) (userInput new))
  || negb (String.eqb (captchaCode old) (captchaCode new))
  || onVerify_changed.

(** The render after a handler: the effect runs when a dependency changed;
    the list holds what was reported through [onVerify]. *)
Definition commit (old new : CaptchaState) (onVerify_changed : bool)
    : CaptchaState * list bool :=
  if deps_changed old new onVerify_changed then
    let '(st, v) := validation_effect new in (st, [v])
  else (new, []).


Definition type_input (value : string) (onVerify_changed : bool) (st : CaptchaState)
    : CaptchaState * list bool :=
  commit st (handleInputChange value st) onVerify_changed.

End CaptchaWidget.

(** A character of [A-Z0-9]. *)
Definition alnum_upper (ch : ascii) : bool :=
  let n := nat_of_ascii ch in
  ((65 <=? n) && (n <=? 90) || (48 <=? n) && (n <=? 57))%nat.

Fixpoint all_chars (p : ascii -> bool) (s : string) : bool :=
  match s with
  | EmptyString => true
  | String ch rest => p ch && all_chars p rest
  end.

(** The ASCII upper-casing, one instance of the built-in on 8-bit strings. *)
Definition upper_ascii (ch : ascii) : ascii :=
  let n := nat_of_ascii ch in
  if ((97 <=? n) && (n <=? 122))%nat then ascii_of_nat (n - 32) else ch.

Fixpoint upper_string (s : string) : string :=
  match s with
  | EmptyString => EmptyString
  | String ch rest => String (upper_ascii ch) (upper_string rest)
  end.

From Stdlib Require Import Lqa.

(** ** The rest of the rate limiter module *)

(** What [useRateLimit] returns. *)
Record RateLimitView : Type := mkView {
  view_isAllowed : bool;
  view_remainingTime : Z;
  view_remainingRequests : Z;
  view_remainingTimeSeconds : Z
}.

(** [useRateLimit]: one [isAllowed] call followed by the two read-outs, each
    with its own clock read. *)
Definition useRateLimit (cfg : RateLimitConfig) (c : Call)
    (ttime trequests : Z) (limits : Limits)
    : Outcome JsExn RateLimitView * Limits :=
  match step cfg c limits with
  | (Rejected exn, limits1) => (Rejected exn, limits1)
  | (Resolved allowed, limits1) =>
      match getRemainingTime cfg (c_args c) (c_ls c) ttime limits1 with
      | Rejected exn => (Rejected exn, limits1)
      | Resolved remainingTime =>
          match getRemainingRequests cfg (c_args c) (c_ls c) trequests limits1 with
          | Rejected exn => (Rejected exn, limits1)
          | Resolved remainingRequests =>
              (Resolved (mkView allowed remainingTime remainingRequests
                                (ceil_seconds remainingTime)), limits1)
          end
      end
  end.

(** Calls of wrapped functions that share one limiter, oldest first; each
    comes with its function and with the clock read of its
    [getRemainingTime]. *)
Fixpoint gated_run {W E A : Type} (cfg : RateLimitConfig) (errorMessage : string)
    (cs : list ((list JsValue -> W -> Outcome E A * W) * Call * Z))
    (limits : Limits) (w : W)
    : list (Outcome (Thrown E) A) * Limits * W * list Event :=
  match cs with
  | [] => ([], limits, w, [])
  | (fn, c, tremain) :: rest =>
      let '(r, limits1, w1, tr1) :=
        withRateLimit fn cfg errorMessage c tremain limits w in
      let '(rs, limits2, w2, tr2) :=
        gated_run cfg errorMessage rest limits1 w1 in
      (r :: rs, limits2, w2, (tr1 ++ tr2)%list)
  end.

(** The call of an element of such a sequence. *)
Definition gated_call {W E A : Type}
    (x : (list JsValue -> W -> Outcome E A * W) * Call * Z) : Call :=
  snd (fst x).

(** Every stored entry counts between 1 and the maximum and closes no later
    than one window after the clock [t]. *)
Definition entries_ok (cfg : RateLimitConfig) (t : Z) (limits : Limits) : Prop :=
  forall k e, limits !! k = Some e ->
    1 <= count e <= maxRequests cfg /\ resetTime e <= t + windowMs cfg.

(** The clock after a sequence of calls that started at [t]. *)
Fixpoint clock_after (t : Z) (cs : list Call) : Z :=
  match cs with
  | [] => t
  | c :: rest => clock_after (c_now c) rest
  end.

(** The waits of a trace, in order. *)
Fixpoint sleeps (tr : list Event) : list Q :=
  match tr with
  | [] => []
  | Invoked :: rest => sleeps rest
  | Slept d :: rest => d :: sleeps rest
  end.

(** ** The bulk sends of the API layer *)

(** A [FormData]: the appended fields in order, names may repeat. *)
Abbreviation FormData := (list (string * JsValue)).

(** [data.pdfFiles] as the body uses it ([length], [[0]], [slice],
    [forEach]): the items of an array; anything else ends in a TypeError. *)
Definition js_items (v : JsValue) : Outcome JsExn (list JsValue) :=
  match v with
  | JsArray items => Resolved items
  | _ => Rejected TypeError
  end.

(** The form of [sendBulkDocument]: the first PDF goes in as
    [documentFile], the others as [pdfFiles]. *)
Definition bulk_form (data : JsValue) : Outcome JsExn FormData :=
  match data with
  | JsUndefined | JsNull => Rejected TypeError
  | _ =>
      let head := [("department", opt_prop data "department");
                   ("scheduledDate", opt_prop data "scheduledDate");
                   ("scheduledTime", opt_prop data "scheduledTime");
                   ("csvFile", opt_prop data "csvFile")] in
      match js_items (opt_prop data "pdfFiles") with
      | Rejected exn => Rejected exn
      | Resolved pdfFiles =>
          let first :=
            if (0 <? Z.of_nat (length pdfFiles))%Z
            then [("documentFile", js_index pdfFiles 0)] else [] in
          let others :=
            List.map (fun file => ("pdfFiles", file)) (skipn 1 pdfFiles) in
          Resolved (head ++ first ++ others)%list
      end
  end.

Definition bulk_database_form (data : JsValue) : Outcome JsExn FormData :=
  match data with
  | JsUndefined | JsNull => Rejected TypeError
  | _ =>
      Resolved [("department", opt_prop data "department");
                ("scheduledDate", opt_prop data "scheduledDate");
                ("scheduledTime", opt_prop data "scheduledTime");
                ("csvFile", opt_prop data "csvFile");
                ("pdfId", opt_prop data "pdfId")]
  end.

Definition bulk_message_text : string :=
  "Too many bulk message requests. Please wait before sending another batch.".

(** The body shared by the two bulk sends: two attempts from a base delay of
    two seconds. *)
Definition bulk_send_body {W E A : Type}
    (form : JsValue -> Outcome JsExn FormData) (url : string)
    (post : string -> JsValue -> W -> Outcome E A * W) (rnd : Z -> Q)
    (args : list JsValue) (st : W * list Event)
    : Outcome (Thrown E) A * (W * list Event) :=
  match form (js_index args 0) with
  | Rejected exn => (Rejected (ThrownExn exn), st)
  | Resolved formData =>
      let '(r, w1, tr) :=
        retryWithBackoff (post url (JsObject formData)) 2 2000 rnd (fst st) in
      (r, (w1, (snd st ++ tr)%list))
  end.

Section BulkSends.
Variable JSON_parse : string -> Outcome JsExn JsValue.

Definition sendBulkDocument {W E A : Type}
    (post : string -> JsValue -> W -> Outcome E A * W) (rnd : Z -> Q)
    (c : Call) (tremain : Z) (limits : Limits) (st : W * list Event)
    : Outcome (Thrown (Thrown E)) A * Limits * (W * list Event) * list Event :=
  withRateLimit (bulk_send_body bulk_form "/send/csv-bulk-document" post rnd)
                (fileUploadRateLimiter JSON_parse)
                bulk_message_text c tremain limits st.

Definition sendBulkDatabasePDF {W E A : Type}
    (post : string -> JsValue -> W -> Outcome E A * W) (rnd : Z -> Q)
    (c : Call) (tremain : Z) (limits : Limits) (st : W * list Event)
    : Outcome (Thrown (Thrown E)) A * Limits * (W * list Event) * list Event :=
  withRateLimit (bulk_send_body bulk_database_form "/send/csv-bulk-database-pdf"
                                post rnd)
                (fileUploadRateLimiter JSON_parse)
                bulk_message_text c tremain limits st.

End BulkSends.

(** ** The other error handlers *)

Definition WhatsAppAPIError (message : string) (details context : JsValue)
    : AppError :=
  mkAppError WhatsAppAPIErrorClass message 502 (JsString "WHATSAPP_API_ERROR")
             details JsUndefined context.

(** [s.includes(sub)] on strings. *)
Fixpoint includes (s sub : string) : bool :=
  String.prefix sub s ||
  match s with
  | EmptyString => false
  | String _ rest => includes rest sub
  end.

(** [v?.includes(sub)]: undefined on null and undefined, the substring test
    on a string, membership in an array; a TypeError on a value that has no
    such method. *)
Definition opt_includes (v : JsValue) (sub : string) : Outcome JsExn JsValue :=
  match v with
  | JsUndefined | JsNull => Resolved JsUndefined
  | JsString s => Resolved (JsBool (includes s sub))
  | JsArray items => Resolved (JsBool (existsb (fun x => is_string x sub) items))
  | _ => Rejected TypeError
  end.

(** A caught value with the further fields the handlers and the response
    interceptor read: [error.details], [error.config?.url] and
    [error.config?.method]. *)
Record Failure : Type := mkFailure {
  f_error : RawError;
  f_details : JsValue;
  f_url : option string;
  f_method : option string
}.

(** [handleFileUploadError]. The three local codes build the
    [ValidationError] with the context in the second place of the
    constructor, the place of [details]. *)
Definition handleFileUploadError (error : RawError) (context : JsValue)
    (ls : LocalStorage) : AppError * LocalStorage :=
  if is_string (raw_code error) "FILE_TOO_LARGE" then
    (ValidationError "File is too large. Please choose a smaller file."
                     context JsUndefined, ls)
  else if is_string (raw_code error) "INVALID_FILE_TYPE" then
    (ValidationError "Invalid file type. Please choose a valid file."
                     context JsUndefined, ls)
  else if is_string (raw_code error) "NO_FILE_SELECTED" then
    (ValidationError "Please select a file to upload." context JsUndefined, ls)
  else handleApiError error context ls.

(** [error.message?.includes('WhatsApp') || error.message?.includes('WA_')] *)
Definition mentions_whatsapp (message : JsValue) : Outcome JsExn bool :=
  match opt_includes message "WhatsApp" with
  | Rejected exn => Rejected exn
  | Resolved first =>
      if truthy first then Resolved true
      else match opt_includes message "WA_" with
           | Rejected exn => Rejected exn
           | Resolved second => Resolved (truthy second)
           end
  end.

Definition handleWhatsAppError (failure : Failure) (context : JsValue)
    (ls : LocalStorage) : Outcome JsExn AppError * LocalStorage :=
  match mentions_whatsapp (raw_message (f_error failure)) with
  | Rejected exn => (Rejected exn, ls)
  | Resolved true =>
      (Resolved (WhatsAppAPIError
                   (js_to_string (js_or (raw_message (f_error failure))
                                        (JsString "WhatsApp API error occurred")))
                   (f_details failure) context), ls)
  | Resolved false =>
      let '(e, ls1) := handleApiError (f_error failure) context ls in
      (Resolved e, ls1)
  end.

(** [error.message || fallback] on the message of an [AppError]. *)
Definition own_message_or (e : AppError) (fallback : string) : string :=
  if String.eqb (err_message e) "" then fallback else err_message e.

Definition getErrorMessage (e : AppError) : string :=
  if instanceof e NetworkErrorClass then
    "Unable to connect to the server. Please check your internet connection and try again."
  else if instanceof e AuthenticationErrorClass then
    "Your session has expired. Please log in again."
  else if instanceof e AuthorizationErrorClass then
    "You do not have permission to perform this action."
  else if instanceof e ValidationErrorClass then
    own_message_or e "Please check your input and try again."
  else if instanceof e WhatsAppAPIErrorClass then
    "WhatsApp service is temporarily unavailable. Please try again later."
  else if instanceof e ServerErrorClass then
    "Server error occurred. Please try again later."
  else own_message_or e "An unexpected error occurred. Please try again.".

(** ** The response interceptor of the API layer *)

(** [{...base, ...extra}]: a field of [extra] replaces the field of the same
    name, a new one is added at the end. *)
Fixpoint obj_set (k : string) (v : JsValue) (fields : list (string * JsValue))
    : list (string * JsValue) :=
  match fields with
  | [] => [(k, v)]
  | (k', v') :: rest =>
      if String.eqb k k' then (k, v) :: rest else (k', v') :: obj_set k v rest
  end.

Definition spread (base extra : list (string * JsValue))
    : list (string * JsValue) :=
  fold_left (fun acc kv => obj_set (fst kv) (snd kv) acc) extra base.

Definition opt_string (o : option string) : JsValue :=
  match o with
  | Some s => JsString s
  | None => JsUndefined
  end.

Section Interceptor.
Variable JSON_parse : string -> Outcome JsExn JsValue.
Variable toUpperCase : string -> string.
(** [new Date().toISOString()] and [window.location.href] at the time of
    the call. *)
Variables timestamp href : string.

(** [createErrorContext]; the stored user is parsed for its [userId]. *)
Definition createErrorContext (operation : string)
    (additionalData : list (string * JsValue)) (ls : LocalStorage)
    : Outcome JsExn JsValue :=
  let userId :=
    if truthy (getItem ls "user") then
      match JSON_parse (js_to_string (getItem ls "user")) with
      | Resolved user => get_prop user "userId"
      | Rejected exn => Rejected exn
      end
    else Resolved JsUndefined in
  match userId with
  | Rejected exn => Rejected exn
  | Resolved uid =>
      Resolved (JsObject (spread [("operation", JsString operation);
                                  ("userId", uid);
                                  ("timestamp", JsString timestamp);
                                  ("url", JsString href);
                                  ("method", JsString "GET")]
                                 additionalData))
  end.

(** [url?.includes(a) || url?.includes(b)] on an optional string. *)
Definition url_has (url : option string) (sub : string) : bool :=
  match url with
  | Some u => includes u sub
  | None => false
  end.

Definition response_status_is (failure : Failure) (status : Z) : bool :=
  match raw_response (f_error failure) with
  | Some resp => Z.eqb (resp_status resp) status
  | None => false
  end.

(** The rejection handler of [api.interceptors.response]: what the promise
    is rejected with, the storage afterwards, and the page the window is
    sent to, if any. *)
Definition response_interceptor (failure : Failure) (ls : LocalStorage)
    : Thrown AppError * LocalStorage * option string :=
  let method := option_map toUpperCase (f_method failure) in
  let operation :=
    js_to_string (js_or (opt_string method) (JsString "UNKNOWN")) in
  match createErrorContext operation
          [("url", opt_string (f_url failure)); ("method", opt_string method)]
          ls with
  | Rejected exn => (ThrownExn exn, ls, None)
  | Resolved context =>
      let handled :=
        if url_has (f_url failure) "/send/" || url_has (f_url failure) "/whatsapp"
        then handleWhatsAppError failure context ls
        else if url_has (f_url failure) "/upload" || url_has (f_url failure) "/file"
        then let '(e, ls1) := handleFileUploadError (f_error failure) context ls in
             (Resolved e, ls1)
        else let '(e, ls1) := handleApiError (f_error failure) context ls in
             (Resolved e, ls1) in
      match handled with
      | (Rejected exn, ls1) => (ThrownExn exn, ls1, None)
      | (Resolved handledError, ls1) =>
          if response_status_is failure 401
             && negb (url_has (f_url failure) "/auth/login")
          then (ThrownBy handledError, clear_session ls1, Some "/login")
          else (ThrownBy handledError, ls1, None)
      end
  end.

(** The request interceptor: the [Authorization] header it adds. *)
Definition authorization_header (ls : LocalStorage) : option string :=
  if truthy (getItem ls "token")
  then Some ("Bearer " ++ js_to_string (getItem ls "token"))
  else None.

End Interceptor.

(** ** The rest of the Captcha widget *)

Definition rotations : list Z :=
  [-15; -10; -5; 0; 5; 10; 15; 20; -20; -25; 25; 30; -30].

(** [rotations[index % rotations.length]]; [%] is the remainder that takes
    the sign of [index], and a negative position holds nothing. *)
Definition getRandomRotation (index : Z) : option Z :=
  let position := Z.rem index (Z.of_nat (length rotations)) in
  if Z.ltb position 0 then None else nth_error rotations (Z.to_nat position).

Section CaptchaMount.
Variable toUpperCase : string -> string.

(** The mount. After the first render both effects run on the values of
    that render: one installs a generated code, the other validates the
    empty input against the empty code and reports. The render that follows
    runs the validation effect again when a dependency changed. *)
Definition mount (rnd : nat -> Q) : CaptchaState * list bool :=
  let '(validated, first_report) :=
    validation_effect toUpperCase captcha_initial in
  let installed :=
    mkCaptcha (generateCaptcha rnd) (userInput validated)
              (isValid validated) (error validated) in
  let '(st, reports) := commit toUpperCase captcha_initial installed false in
  (st, first_report :: reports).

End CaptchaMount.

(** ** Form validation helpers *)

Record ValidationResult : Type := mkValidation {
  vr_isValid : bool;
  vr_errors : list string;
  vr_sanitizedValue : JsValue
}.

(** [validateForm]: the [forEach] over the results, with its two
    accumulators. *)
Definition validateForm (validations : list ValidationResult) : ValidationResult :=
  let '(isValid, allErrors) :=
    fold_left
      (fun (acc : bool * list string) validation =>
         if negb (vr_isValid validation)
         then (false, (snd acc ++ vr_errors validation)%list)
         else acc)
      validations (true, []) in
  mkValidation isValid allErrors JsUndefined.

Definition is_digit (ch : ascii) : bool :=
  let n := nat_of_ascii ch in ((48 <=? n) && (n <=? 57))%nat.

(** [s.replace(/\D/g, '')] *)
Fixpoint keep_digits (s : string) : string :=
  match s with
  | EmptyString => EmptyString
  | String ch rest =>
      if is_digit ch then String ch (keep_digits rest) else keep_digits rest
  end.

(** [/^\d{n}$/.test(s)] *)
Definition digits_exactly (n : nat) (s : string) : bool :=
  Nat.eqb (String.length s) n && all_chars is_digit s.

(** The three patterns of [validatePhoneNumber]: [/^91\d{10}$/],
    [/^\d{10}$/] and [/^0\d{9}$/]. *)
Definition phone_patterns : list (string -> bool) :=
  [ (fun s => match s with
              | String a (String b rest) =>
                  Ascii.eqb a "9" && Ascii.eqb b "1" && digits_exactly 10 rest
              | _ => false
              end);
    digits_exactly 10;
    (fun s => match s with
              | String a rest => Ascii.eqb a "0" && digits_exactly 9 rest
              | EmptyString => false
              end) ].

Definition validatePhoneNumber (phone : string) : ValidationResult :=
  if String.eqb phone "" then
    mkValidation false ["Phone number is required"] JsUndefined
  else
    let cleaned := keep_digits phone in
    let errors1 :=
      if (String.length cleaned <? 10)%nat
      then ["Phone number must be at least 10 digits"] else [] in
    let errors2 :=
      if (15 <? String.length cleaned)%nat
      then (errors1 ++ ["Phone number is too long"])%list else errors1 in
    let isValidFormat := existsb (fun pattern => pattern cleaned) phone_patterns in
    let errors3 :=
      if negb isValidFormat
      then (errors2 ++ ["Please enter a valid phone number"])%list else errors2 in
    mkValidation (Nat.eqb (length errors3) 0) errors3 (JsString cleaned).

(** ** debounce and throttle *)

(** What happens to a debounced or throttled function: it is called at time
    [t], or the event loop gets to run a timer callback at time [t]. A
    callback runs no earlier than its timer is due. *)
Inductive TimerEvent : Type :=
  | Called (t : Z) (args : list JsValue)
  | TimerRuns (t : Z).

(** The closure of [throttle]: the flag, and when the one pending timer is
    due. *)
Record ThrottleState : Type := mkThrottle {
  inThrottle : bool;
  throttle_due : option Z
}.

Definition throttle_initial : ThrottleState := mkThrottle false None.

(** One event on a throttled function. The log holds the time of an
    invocation of [func] and whether it returned; when [func] throws, the
    flag is not set and no timer is started. *)
Definition throttle_step {W E A : Type}
    (func : list JsValue -> W -> Outcome E A * W) (limit : Z)
    (ev : TimerEvent) (st : ThrottleState) (w : W)
    : ThrottleState * W * list (Z * bool) :=
  match ev with
  | Called t args =>
      if negb (inThrottle st) then
        match func args w with
        | (Resolved _, w1) => (mkThrottle true (Some (t + limit)), w1, [(t, true)])
        | (Rejected _, w1) => (st, w1, [(t, false)])
        end
      else (st, w, [])
  | TimerRuns t =>
      match throttle_due st with
      | Some due =>
          if Z.leb due t then (mkThrottle false None, w, []) else (st, w, [])
      | None => (st, w, [])
      end
  end.

Fixpoint throttle_run {W E A : Type}
    (func : list JsValue -> W -> Outcome E A * W) (limit : Z)
    (evs : list TimerEvent) (st : ThrottleState) (w : W)
    : ThrottleState * W * list (Z * bool) :=
  match evs with
  | [] => (st, w, [])
  | ev :: rest =>
      let '(st1, w1, log1) := throttle_step func limit ev st w in
      let '(st2, w2, log2) := throttle_run func limit rest st1 w1 in
      (st2, w2, (log1 ++ log2)%list)
  end.

(** The closure of [debounce]: the pending timer, with the time it is due
    and the arguments its callback will pass on. *)
Abbreviation DebounceState := (option (Z * list JsValue)).

Definition debounce_step {W E A : Type}
    (func : list JsValue -> W -> Outcome E A * W) (wait : Z)
    (ev : TimerEvent) (st : DebounceState) (w : W)
    : DebounceState * W * list (Z * list JsValue) :=
  match ev with
  | Called t args => (Some (t + wait, args), w, [])
  | TimerRuns t =>
      match st with
      | Some (due, args) =>
          if Z.leb due t then (None, snd (func args w), [(t, args)])
          else (st, w, [])
      | None => (st, w, [])
      end
  end.

Fixpoint debounce_run {W E A : Type}
    (func : list JsValue -> W -> Outcome E A * W) (wait : Z)
    (evs : list TimerEvent) (st : DebounceState) (w : W)
    : DebounceState * W * list (Z * list JsValue) :=
  match evs with
  | [] => (st, w, [])
  | ev :: rest =>
      let '(st1, w1, log1) := debounce_step func wait ev st w in
      let '(st2, w2, log2) := debounce_run func wait rest st1 w1 in
      (st2, w2, (log1 ++ log2)%list)
  end.

Definition event_time (ev : TimerEvent) : Z :=
  match ev with
  | Called t _ => t
  | TimerRuns t => t
  end.

(** The events come in the order of the clock. *)
Fixpoint in_order (t : Z) (evs : list TimerEvent) : Prop :=
  match evs with
  | [] => True
  | ev :: rest => t <= event_time ev /\ in_order (event_time ev) rest
  end.

(** After an invocation that returned, the next one comes at least [limit]
    later. *)
Fixpoint spaced (limit : Z) (log : list (Z * bool)) : Prop :=
  match log with
  | [] => True
  | (t, returned) :: rest =>
      match rest with
      | [] => True
      | (t', _) :: _ => (returned = true -> t + limit <= t')
      end /\ spaced limit rest
  end.

Definition is_call (ev : TimerEvent) : bool :=
  match ev with Called _ _ => true | TimerRuns _ => false end.

(** ** Predicates of the statements and sample inputs *)

(** A call with key [k] made before the window closing at [B] is over. *)
Definition within (cfg : RateLimitConfig) (k : string) (B : Z) (c : Call) : Prop :=
  call_key cfg c = Resolved k /\ c_sweep c <= B /\ c_now c <= B.

(** Sample call sequences and limiter states. *)
Definition two_calls : list Call := [at_time 0; at_time 5].

Definition two_keys : Limits :=
  <["default" := mkEntry 1 100]> (<["old" := mkEntry 1 5]> ∅).

(** An operation that always fails, and one that always succeeds; the world
    counts the invocations. *)
Definition always_fails (w : nat) : Outcome string string * nat :=
  (Rejected "unavailable", S w).

Definition always_succeeds (w : nat) : Outcome string string * nat :=
  (Resolved "sent", S w).

Definition five_failures : list (Exec nat string string) :=
  [mkExec always_fails 0 1; mkExec always_fails 2 3; mkExec always_fails 4 5;
   mkExec always_fails 6 7; mkExec always_fails 8 1000].

Definition tripped : CircuitBreaker :=
  snd (fst (execute_all five_failures apiCircuitBreaker 0%nat)).

(** The events of three attempts from a base delay of 100 ms. *)
Definition three_attempts (rnd : Z -> Q) : list Event :=
  [Invoked; Slept (backoff_delay 100 1 (rnd 1));
   Invoked; Slept (backoff_delay 100 2 (rnd 2));
   Invoked].

(** An operation that fails on its first two invocations; the world counts
    the invocations. *)
Definition fails_twice (w : nat) : Outcome string string * nat :=
  match w with
  | O => (Rejected "first", 1%nat)
  | S O => (Rejected "second", 2%nat)
  | S (S n) => (Resolved "sent", S (S (S n)))
  end.

Definition fails_numbered (w : nat) : Outcome string string * nat :=
  match w with
  | O => (Rejected "first", 1%nat)
  | S O => (Rejected "second", 2%nat)
  | S (S n) => (Rejected "third", S (S (S n)))
  end.

Definition no_jitter (attempt : Z) : Q := inject_Z 0.

Definition unit_fn (args : list JsValue) (w : nat) : Outcome string string * nat :=
  (Resolved "sent", S w).

Definition one_used : Limits := snd (step (plain 1 10000) (at_time 0) ∅).


Definition with_status (status : Z) : RawError :=
  mkRaw JsUndefined JsUndefined (Some (mkResponse status JsUndefined JsUndefined)).

(** An operation answered by 503 on every invocation, and one answered by
    404; the world counts the invocations. *)
Definition unavailable (w : nat) : Outcome RawError string * nat :=
  (Rejected (with_status 503), S w).

Definition missing (w : nat) : Outcome RawError string * nat :=
  (Rejected (with_status 404), S w).

Definition quote : string := String (ascii_of_nat 34) EmptyString.

(** The JSON text of an object whose only field, userId, is the string u1,
    and the value [JSON.parse] gives for it. *)
Definition stored_user_text : string :=
  "{" ++ quote ++ "userId" ++ quote ++ ":" ++ quote ++ "u1" ++ quote ++ "}".

Definition parse_stored_user (text : string) : Outcome JsExn JsValue :=
  if String.eqb text stored_user_text
  then Resolved (JsObject [("userId", JsString "u1")])
  else Rejected SyntaxError.

Definition logged_in : LocalStorage := <["user" := stored_user_text]> ∅.

Definition request_a : JsValue :=
  JsObject [("to", JsString "919876543210"); ("department", JsString "HR");
            ("scheduledDate", JsString "2026-01-05");
            ("scheduledTime", JsString "10:30"); ("pdfFile", JsObject [])].

Definition request_b : JsValue :=
  JsObject [("to", JsString "919812345678"); ("department", JsString "ACC");
            ("scheduledDate", JsString "2026-02-01");
            ("scheduledTime", JsString "09:00"); ("pdfFile", JsObject [])].

Definition one_alnum (s : string) : bool :=
  match s with
  | String ch EmptyString => alnum_upper ch
  | _ => false
  end.

(** Sample draws of [Math.random()]. *)
Definition draw_first (i : nat) : Q := inject_Z 0.
Definition draw_middle (i : nat) : Q := Qmake 1 2.

(** ** Further predicates of the statements *)

(** The files of a bulk form: what was appended as [documentFile] or as
    [pdfFiles], in order. *)
Definition is_pdf_field (kv : string * JsValue) : bool :=
  String.eqb (fst kv) "documentFile" || String.eqb (fst kv) "pdfFiles".

Definition pdf_parts (form : list (string * JsValue)) : list JsValue :=
  List.map snd (List.filter is_pdf_field form).

Definition is_document_field (kv : string * JsValue) : bool :=
  String.eqb (fst kv) "documentFile".

(** One of the two bulk sends: [sendBulkDocument] for [true],
    [sendBulkDatabasePDF] for [false]. *)
Definition bulk_send {W E A : Type}
    (JSON_parse : string -> Outcome JsExn JsValue) (uploaded : bool)
    (post : string -> JsValue -> W -> Outcome E A * W) (rnd : Z -> Q)
    (c : Call) (tremain : Z) (limits : Limits) (st : W * list Event)
    : Outcome (Thrown (Thrown E)) A * Limits * (W * list Event) * list Event :=
  if uploaded
  then sendBulkDocument JSON_parse post rnd c tremain limits st
  else sendBulkDatabasePDF JSON_parse post rnd c tremain limits st.

(** The first invocation of a log, if any, comes no earlier than [bound]. *)
Definition first_at_least (bound : Z) (log : list (Z * bool)) : Prop :=
  match log with
  | [] => True
  | (t, _) :: _ => bound <= t
  end.

(** The events of a burst of calls. *)
Definition calls_of (calls : list (Z * list JsValue)) : list TimerEvent :=
  List.map (fun c => Called (fst c) (snd c)) calls.

(** The attempt numbers [from], [from + 1], ... of [n] consecutive waits. *)
Fixpoint attempts_from (from : Z) (n : nat) : list Z :=
  match n with
  | O => []
  | S n' => from :: attempts_from (from + 1) n'
  end.

(** ** Further sample inputs *)

(** A limiter keyed by its first argument, and a call for a given key. *)
Definition by_first_argument : RateLimitConfig :=
  mkConfig 2 10 (Some (fun args _ => Resolved (js_to_string (js_index args 0)))).

Definition call_for (name : string) (t : Z) : Call :=
  mkCall [JsString name] ∅ t t.

Definition one_call_made : Limits := snd (step (plain 2 10) (at_time 0) ∅).

(** An operation answered by 401 on every invocation. *)
Definition unauthorized (w : nat) : Outcome RawError string * nat :=
  (Rejected (with_status 401), S w).

Definition session : LocalStorage :=
  <["token" := "t0k3n"]> (<["user" := stored_user_text]> (<["theme" := "dark"]> ∅)).

Definition two_failures : list (Exec nat string string) :=
  [mkExec always_fails 0 1; mkExec always_fails 2 3].

Definition two_early_calls : list (Exec nat string string) :=
  [mkExec always_succeeds 2000 2001; mkExec always_succeeds 31000 31001].

Definition post_ok (url : string) (form : JsValue) (w : nat)
    : Outcome string string * nat :=
  (Resolved "ok", S w).

Definition bulk_request : JsValue :=
  JsObject [("department", JsString "HR"); ("csvFile", JsObject []);
            ("pdfFiles", JsArray [JsObject []; JsObject []])].

Definition bulk_call (t : Z) : Call := mkCall [bulk_request] logged_in t t.

Definition login_failure : Failure :=
  mkFailure (with_status 401) JsUndefined (Some "/auth/login") (Some "post").

Definition unreadable : LocalStorage := <["user" := "not json"]> ∅.

Definition throttled_events : list TimerEvent :=
  [Called 0 []; Called 50 []; TimerRuns 100; Called 120 []].

(** ** Facts about the sweep and about one call *)

Section RateLimiterFacts.
Variable cfg : RateLimitConfig.

Lemma cleanup_keeps (t : Z) (m : Limits) (k : string) (e : RateLimitEntry) :
  m !! k = Some e -> expired t e = false -> cleanup t m !! k = Some e.
Proof.
  intros Hm He. unfold cleanup. apply map_lookup_filter_Some. by split.
Qed.

Lemma cleanup_drops (t : Z) (m : Limits) (k : string) (e : RateLimitEntry) :
  m !! k = Some e -> expired t e = true -> cleanup t m !! k = None.
Proof.
  intros Hm He. unfold cleanup. apply map_lookup_filter_None. right.
  intros e' Hm' Hp. simpl in Hp. congruence.
Qed.

Lemma cleanup_absent (t : Z) (m : Limits) (k : string) :
  m !! k = None -> cleanup t m !! k = None.
Proof.
  intros Hm. unfold cleanup. apply map_lookup_filter_None. by left.
Qed.

Lemma cleanup_sub (t : Z) (m : Limits) (k : string) (e : RateLimitEntry) :
  cleanup t m !! k = Some e -> m !! k = Some e /\ expired t e = false.
Proof.
  unfold cleanup. intros H. by apply map_lookup_filter_Some in H.
Qed.

Lemma expired_mono (t t' : Z) (e : RateLimitEntry) :
  t <= t' -> expired t' e = false -> expired t e = false.
Proof. unfold expired. intros Ht H. lia. Qed.

Lemma step_idle (k : string) (c : Call) (m : Limits) :
  call_key cfg c = Resolved k -> idle k c m ->
  fst (step cfg c m) = Resolved true /\
  snd (step cfg c m) !! k = Some (fresh_entry cfg (c_now c)).
Proof.
  unfold call_key, step, isAllowed, idle. intros -> Hidle.
  destruct (m !! k) as [e|] eqn:Hm.
  - destruct (expired (c_sweep c) e) eqn:Hs.
    + rewrite (cleanup_drops _ _ _ _ Hm Hs). simpl. by rewrite lookup_insert_eq.
    + rewrite (cleanup_keeps _ _ _ _ Hm Hs).
      destruct Hidle as [Hx|Hx]; [congruence|]. rewrite Hx. simpl.
      by rewrite lookup_insert_eq.
  - rewrite (cleanup_absent _ _ _ Hm). simpl. by rewrite lookup_insert_eq.
Qed.

(** A call inside the window of [k]'s entry, with the same key. *)
Lemma step_active (k : string) (c : Call) (m : Limits) (e : RateLimitEntry) :
  call_key cfg c = Resolved k -> m !! k = Some e ->
  expired (c_sweep c) e = false -> expired (c_now c) e = false ->
  step cfg c m =
    if count e >=? maxRequests cfg
    then (Resolved false, cleanup (c_sweep c) m)
    else (Resolved true,
          <[k := mkEntry (count e + 1) (resetTime e)]> (cleanup (c_sweep c) m)).
Proof.
  unfold call_key, step, isAllowed. intros -> Hm Hs Hn.
  rewrite (cleanup_keeps _ _ _ _ Hm Hs), Hn. by destruct (count e >=? _).
Qed.

(** A call with another key, or whose key generator throws, leaves an
    unexpired entry of [k] as it is. *)
Lemma step_other (k : string) (c : Call) (m : Limits) (e : RateLimitEntry) :
  has_key cfg k c = false -> m !! k = Some e ->
  expired (c_sweep c) e = false ->
  snd (step cfg c m) !! k = Some e.
Proof.
  unfold has_key, call_key, step, isAllowed. intros Hk Hm Hs.
  pose proof (cleanup_keeps _ _ _ _ Hm Hs) as Hc.
  destruct (getKey cfg (c_args c) (c_ls c)) as [k'|exn]; simpl; [|done].
  assert (k' <> k) as Hne.
  { intros ->. by rewrite String.eqb_refl in Hk. }
  destruct (cleanup (c_sweep c) m !! k') as [e'|]; simpl.
  - destruct (expired (c_now c) e'); simpl.
    + by rewrite lookup_insert_ne.
    + destruct (count e' >=? maxRequests cfg); simpl; [done|].
      by rewrite lookup_insert_ne.
  - by rewrite lookup_insert_ne.
Qed.

Lemma has_key_true (k : string) (c : Call) :
  has_key cfg k c = true -> call_key cfg c = Resolved k.
Proof.
  unfold has_key. destruct (call_key cfg c) as [k'|]; [|done].
  intros H. apply String.eqb_eq in H. by subst.
Qed.

Lemma has_key_of (k : string) (c : Call) :
  call_key cfg c = Resolved k -> has_key cfg k c = true.
Proof. unfold has_key. intros ->. apply String.eqb_refl. Qed.

(** Once the clock has passed [bound], no later call is counted. *)
Lemma admissions_late (k : string) (bound : Z) (cs : list Call) :
  forall (t : Z) (m : Limits),
    bound < t -> chronological t cs -> admissions cfg k bound cs m = 0%nat.
Proof.
  induction cs as [|c rest IH]; intros t m Hlate Hchr; [done|].
  destruct Hchr as (H1 & H2 & Hrest). simpl.
  destruct (step cfg c m) as [r m1].
  replace (Z.leb (c_now c) bound) with false by (symmetry; apply Z.leb_gt; lia).
  rewrite andb_false_r. simpl. apply (IH (c_now c)); [lia|done].
Qed.

(** The counting invariant of one window: with [k]'s entry holding
    [count e] and closing at [resetTime e], at most
    [maxRequests - count e] further calls are admitted before it closes. *)
Lemma admissions_in_window (k : string) (cs : list Call) :
  forall (t : Z) (m : Limits) (e : RateLimitEntry),
    m !! k = Some e -> chronological t cs ->
    (admissions cfg k (resetTime e) cs m
     <= Z.to_nat (maxRequests cfg - count e))%nat.
Proof.
  induction cs as [|c rest IH]; intros t m e Hm Hchr; [simpl; lia|].
  destruct Hchr as (H1 & H2 & Hrest).
  destruct (Z.leb (c_now c) (resetTime e)) eqn:Hin.
  - pose proof Hin as Hle. apply Z.leb_le in Hle.
    assert (expired (c_now c) e = false) as Hn by (unfold expired; lia).
    assert (expired (c_sweep c) e = false) as Hs by (unfold expired; lia).
    destruct (has_key cfg k c) eqn:Hk.
    + pose proof (has_key_true _ _ Hk) as Hkey. simpl.
      rewrite (step_active k c m e Hkey Hm Hs Hn).
      destruct (count e >=? maxRequests cfg) eqn:Hfull.
      * simpl. apply (IH (c_now c) _ e); [|done]. by apply cleanup_keeps.
      * rewrite Hk, Hin. simpl.
        specialize (IH (c_now c)
          (<[k := mkEntry (count e + 1) (resetTime e)]> (cleanup (c_sweep c) m))
          (mkEntry (count e + 1) (resetTime e))).
        simpl in IH. rewrite lookup_insert_eq in IH.
        specialize (IH eq_refl Hrest). lia.
    + pose proof (step_other k c m e Hk Hm Hs) as Hkeep. simpl.
      destruct (step cfg c m) as [r m1]. simpl in Hkeep.
      rewrite Hk, andb_false_r. simpl. by apply (IH (c_now c) m1 e).
  - simpl. destruct (step cfg c m) as [r m1]. rewrite Hin, andb_false_r.
    apply Z.leb_gt in Hin. simpl.
    rewrite (admissions_late k (resetTime e) rest (c_now c) m1); [lia|lia|done].
Qed.

End RateLimiterFacts.

(** ** RateLimiter: windows, admissions, rejections *)

Section RateLimiterClaims.
Variable cfg : RateLimitConfig.

(** Calls of one key inside its window are admitted for as long as the
    count stays below the maximum, and each one adds one to the count. *)
Lemma run_fills_window (k : string) (cs : list Call) :
  forall (m : Limits) (e : RateLimitEntry),
    m !! k = Some e ->
    Forall (within cfg k (resetTime e)) cs ->
    count e + Z.of_nat (length cs) <= maxRequests cfg ->
    Forall (fun r => r = Resolved true) (fst (run cfg cs m)) /\
    snd (run cfg cs m) !! k
      = Some (mkEntry (count e + Z.of_nat (length cs)) (resetTime e)).
Proof.
  induction cs as [|c rest IH]; intros m e Hm Hall Hroom.
  - simpl. split; [constructor|]. rewrite Hm. destruct e. simpl.
    do 2 f_equal. lia.
  - inversion Hall as [|c' rest' (Hk & Hs & Hn) Hrest]; subst.
    assert (expired (c_now c) e = false) as Hn' by (unfold expired; lia).
    assert (expired (c_sweep c) e = false) as Hs' by (unfold expired; lia).
    simpl. rewrite (step_active cfg k c m e Hk Hm Hs' Hn').
    simpl length in Hroom.
    replace (count e >=? maxRequests cfg) with false by (symmetry; lia).
    specialize (IH
      (<[k := mkEntry (count e + 1) (resetTime e)]> (cleanup (c_sweep c) m))
      (mkEntry (count e + 1) (resetTime e))).
    rewrite lookup_insert_eq in IH. simpl in IH.
    destruct (IH eq_refl Hrest ltac:(lia)) as [IH1 IH2].
    destruct (run cfg rest _) as [rs m2]. simpl in *. split.
    + by constructor.
    + rewrite IH2. do 2 f_equal. lia.
Qed.

(** C1 (amended). Fixed window: from the call that opens the window of key
    [k] at time [c_now c1] until that window closes [windowMs] later,
    [isAllowed] returns true at most [maxRequests] times for [k], whatever
    other calls are made in between. *)
Theorem admissions_per_fixed_window (k : string) (c1 : Call)
    (rest : list Call) (m0 : Limits) (t0 : Z) :
  1 <= maxRequests cfg ->
  call_key cfg c1 = Resolved k ->
  idle k c1 m0 ->
  chronological t0 (c1 :: rest) ->
  (admissions cfg k (c_now c1 + windowMs cfg) (c1 :: rest) m0
   <= Z.to_nat (maxRequests cfg))%nat.
Proof.
  intros HN Hk Hidle (_ & _ & Hchr).
  destruct (step_idle cfg k c1 m0 Hk Hidle) as [Hr Hm1].
  simpl. destruct (step cfg c1 m0) as [r m1]. simpl in Hr, Hm1. subst r.
  pose proof (admissions_in_window cfg k rest (c_now c1) m1
                (fresh_entry cfg (c_now c1)) Hm1 Hchr) as Hrest.
  simpl in Hrest.
  match goal with |- context [if ?b then _ else _] => destruct b end; lia.
Qed.

(** C3 (amended). From a limiter where [k] has no active entry, [N] calls
    with key [k] before the window of the first one closes are all
    admitted, a further call inside the window returns false, and a call
    made more than [windowMs] after the first one returns true and leaves
    the entry of [k] at count 1 with a new window. *)
Theorem window_fills_rejects_then_resets (k : string) (c1 : Call)
    (rest : list Call) (cnext clate : Call) (m0 : Limits) :
  1 <= maxRequests cfg ->
  Z.of_nat (length (c1 :: rest)) = maxRequests cfg ->
  call_key cfg c1 = Resolved k ->
  idle k c1 m0 ->
  Forall (within cfg k (c_now c1 + windowMs cfg)) rest ->
  within cfg k (c_now c1 + windowMs cfg) cnext ->
  call_key cfg clate = Resolved k ->
  c_sweep clate <= c_now clate ->
  c_now c1 + windowMs cfg < c_now clate ->
  let m1 := snd (run cfg (c1 :: rest) m0) in
  let m2 := snd (step cfg cnext m1) in
  Forall (fun r => r = Resolved true) (fst (run cfg (c1 :: rest) m0)) /\
  fst (step cfg cnext m1) = Resolved false /\
  fst (step cfg clate m2) = Resolved true /\
  snd (step cfg clate m2) !! k
    = Some (mkEntry 1 (c_now clate + windowMs cfg)).
Proof.
  intros HN Hlen Hk Hidle Hrest (Hkn & Hsn & Hnn) Hkl Hmono Hlate.
  destruct (step_idle cfg k c1 m0 Hk Hidle) as [Hr Hm].
  cbn zeta. simpl run.
  destruct (step cfg c1 m0) as [r mA]. simpl in Hr, Hm. subst r.
  simpl length in Hlen.
  destruct (run_fills_window k rest mA (fresh_entry cfg (c_now c1)) Hm Hrest)
    as [Hall Hfull]; [simpl; lia|].
  destruct (run cfg rest mA) as [rs mB]. simpl in Hall, Hfull. simpl fst. simpl snd.
  set (full := mkEntry (1 + Z.of_nat (length rest)) (c_now c1 + windowMs cfg)) in *.
  assert (expired (c_now cnext) full = false) as En by (unfold expired; simpl; lia).
  assert (expired (c_sweep cnext) full = false) as Es by (unfold expired; simpl; lia).
  rewrite (step_active cfg k cnext mB full Hkn Hfull Es En).
  replace (count full >=? maxRequests cfg) with true by (symmetry; simpl; lia).
  simpl fst. simpl snd. split; [by constructor|]. split; [done|].
  apply (step_idle cfg k clate); [done|].
  unfold idle. rewrite (cleanup_keeps _ _ _ _ Hfull Es).
  right. unfold expired. simpl. lia.
Qed.

(** C9 (amended). A call on a key whose unexpired entry is at the maximum
    returns false; the map it leaves is the swept map: the entry of the key
    and every unexpired entry are as they were, nothing is added, and what
    is gone is what had expired. *)
Theorem rejected_call_only_sweeps (k : string) (c : Call) (m : Limits)
    (e : RateLimitEntry) :
  call_key cfg c = Resolved k ->
  m !! k = Some e ->
  c_sweep c <= c_now c ->
  c_now c <= resetTime e ->
  maxRequests cfg <= count e ->
  step cfg c m = (Resolved false, cleanup (c_sweep c) m) /\
  cleanup (c_sweep c) m !! k = Some e /\
  (forall k' e', cleanup (c_sweep c) m !! k' = Some e' -> m !! k' = Some e') /\
  (forall k' e', m !! k' = Some e' -> cleanup (c_sweep c) m !! k' = None ->
                 resetTime e' < c_sweep c).
Proof.
  intros Hk Hm Hmono Hact Hfull.
  assert (expired (c_now c) e = false) as Hn by (unfold expired; lia).
  assert (expired (c_sweep c) e = false) as Hs by (unfold expired; lia).
  rewrite (step_active cfg k c m e Hk Hm Hs Hn).
  replace (count e >=? maxRequests cfg) with true by (symmetry; lia).
  split; [done|]. split; [by apply cleanup_keeps|]. split.
  - intros k' e' H. by apply cleanup_sub in H as [? _].
  - intros k' e' Hin Hgone.
    destruct (expired (c_sweep c) e') eqn:Hx.
    + unfold expired in Hx. lia.
    + rewrite (cleanup_keeps _ _ _ _ Hin Hx) in Hgone. done.
Qed.

End RateLimiterClaims.

(** Witness of [admissions_per_fixed_window]: two requests per 10 ms, the
    window opened at time 0 and four calls made. *)
Lemma admissions_per_fixed_window_witness :
  (admissions (plain 2 10) "default" (0 + 10)
     [at_time 0; at_time 4; at_time 10; at_time 11] ∅ <= Z.to_nat 2)%nat.
Proof.
  apply (admissions_per_fixed_window (plain 2 10) "default" (at_time 0)
           [at_time 4; at_time 10; at_time 11] ∅ 0).
  - simpl. lia.
  - reflexivity.
  - exact I.
  - simpl. lia.
Defined.

(** C1 as stated fails: with two requests per 10 ms, the calls at 10, 11 and
    12 ms lie within one span of 10 ms and all three are admitted, the first
    as the last of the window opened at 0, the others in the next window. *)
Lemma burst_across_windows :
  let cfg := plain 2 10 in
  let m1 := snd (run cfg [at_time 0] ∅) in
  let burst := [at_time 10; at_time 11; at_time 12] in
  chronological 0 (at_time 0 :: burst) /\
  fst (run cfg burst m1) = [Resolved true; Resolved true; Resolved true] /\
  Forall (fun c => 10 <= c_now c < 10 + windowMs cfg) burst /\
  admissions cfg "default" (10 + windowMs cfg - 1) burst m1 = 3%nat /\
  maxRequests cfg < 3.
Proof.
  cbn zeta. split; [simpl; lia|]. split; [vm_compute; reflexivity|].
  split; [repeat constructor; simpl; lia|]. split; [vm_compute; reflexivity|]. simpl. lia.
Qed.

(** Witness of [window_fills_rejects_then_resets]: two per 10 ms, calls at 0
    and 5, a third at 10, the late one at 11. *)
Lemma window_fills_rejects_then_resets_witness :
  Forall (fun r => r = Resolved true) (fst (run (plain 2 10) two_calls ∅)) /\
  fst (step (plain 2 10) (at_time 10) (snd (run (plain 2 10) two_calls ∅)))
    = Resolved false /\
  fst (step (plain 2 10) (at_time 11)
         (snd (step (plain 2 10) (at_time 10) (snd (run (plain 2 10) two_calls ∅)))))
    = Resolved true /\
  snd (step (plain 2 10) (at_time 11)
         (snd (step (plain 2 10) (at_time 10) (snd (run (plain 2 10) two_calls ∅)))))
    !! "default" = Some (mkEntry 1 (11 + 10)).
Proof.
  apply (window_fills_rejects_then_resets (plain 2 10) "default" (at_time 0)
           [at_time 5] (at_time 10) (at_time 11) ∅).
  - simpl. lia.
  - reflexivity.
  - reflexivity.
  - exact I.
  - repeat constructor; simpl; lia.
  - repeat split; simpl; lia.
  - reflexivity.
  - simpl. lia.
  - simpl. lia.
Defined.

(** C3 as stated fails at the boundary: one request per 10 ms, a first call
    at time 0; the call made exactly 10 ms later, after a wait of at least
    [windowMs], is still turned away and the count is not reset. *)
Lemma wait_of_exactly_window_is_rejected :
  let cfg := plain 1 10 in
  let m1 := snd (step cfg (at_time 0) ∅) in
  fst (step cfg (at_time 0) ∅) = Resolved true /\
  c_now (at_time 10) - c_now (at_time 0) >= windowMs cfg /\
  fst (step cfg (at_time 10) m1) = Resolved false /\
  snd (step cfg (at_time 10) m1) !! "default" = Some (mkEntry 1 10).
Proof.
  cbn zeta. split; [vm_compute; reflexivity|]. split; [simpl; lia|].
  split; vm_compute; reflexivity.
Qed.

(** Witness of [rejected_call_only_sweeps]. *)
Lemma rejected_call_only_sweeps_witness :
  step (plain 1 100) (at_time 10) two_keys
    = (Resolved false, cleanup 10 two_keys) /\
  cleanup 10 two_keys !! "default" = Some (mkEntry 1 100) /\
  (forall k' e', cleanup 10 two_keys !! k' = Some e' -> two_keys !! k' = Some e') /\
  (forall k' e', two_keys !! k' = Some e' -> cleanup 10 two_keys !! k' = None ->
                 resetTime e' < 10).
Proof.
  apply (rejected_call_only_sweeps (plain 1 100) "default" (at_time 10)
           two_keys (mkEntry 1 100)).
  - reflexivity.
  - vm_compute; reflexivity.
  - simpl. lia.
  - simpl. lia.
  - simpl. lia.
Defined.

(** C9 as stated fails: the rejected call for "default" removes the expired
    entry of "old", so the map is not the one the call found. *)
Lemma rejected_call_removes_expired_entry :
  fst (step (plain 1 100) (at_time 10) two_keys) = Resolved false /\
  two_keys !! "default" = Some (mkEntry 1 100) /\
  two_keys !! "old" = Some (mkEntry 1 5) /\
  snd (step (plain 1 100) (at_time 10) two_keys) !! "old" = None /\
  snd (step (plain 1 100) (at_time 10) two_keys) <> two_keys.
Proof.
  assert (snd (step (plain 1 100) (at_time 10) two_keys) !! "old" = None) as Hgone
    by (vm_compute; reflexivity).
  assert (two_keys !! "old" = Some (mkEntry 1 5)) as Hold
    by (vm_compute; reflexivity).
  split; [vm_compute; reflexivity|]. split; [vm_compute; reflexivity|].
  split; [exact Hold|]. split; [exact Hgone|].
  intros Heq. rewrite Heq in Hgone. congruence.
Qed.

(** ** CircuitBreaker: opening, the probe, recovery *)

Section BreakerClaims.
Context {W E A : Type}.

Lemma gate_config (cb cb1 : CircuitBreaker) (now : Z) :
  gate cb now = Some cb1 ->
  threshold cb1 = threshold cb /\ resetTimeout cb1 = resetTimeout cb /\
  failureCount cb1 = failureCount cb /\
  (state cb1 = state cb \/ (state cb = OPEN /\ state cb1 = HALF_OPEN)).
Proof.
  unfold gate. destruct (state cb) eqn:Hs.
  - intros [= <-]. repeat split; auto.
  - destruct (now - lastFailureTime cb >? resetTimeout cb); [|done].
    intros [= <-]. simpl. repeat split; auto.
  - intros [= <-]. repeat split; auto.
Qed.

(** A new breaker with a positive threshold is in order. *)
Lemma new_breaker_ok (threshold timeout resetTimeout : Z) :
  1 <= threshold -> breaker_ok (new_CircuitBreaker threshold timeout resetTimeout).
Proof. intros H. unfold breaker_ok. simpl. lia. Qed.

(** One call on a breaker that is in order leaves it in order, with the
    same configuration. *)
Lemma execute_keeps_ok (cb : CircuitBreaker) (fn : W -> Outcome E A * W)
    (now tfail : Z) (w : W) :
  breaker_ok cb ->
  let cb' := snd (fst (fst (execute cb fn now tfail w))) in
  breaker_ok cb' /\ threshold cb' = threshold cb /\
  resetTimeout cb' = resetTimeout cb.
Proof.
  intros [HT Hst]. cbn zeta. unfold execute.
  destruct (gate cb now) as [cb1|] eqn:Hg.
  - destruct (gate_config _ _ _ Hg) as (Ht & Hr & Hc & Hs).
    destruct (fn w) as [[a|e] w1]; simpl.
    + unfold breaker_ok. simpl. repeat split; lia.
    + unfold breaker_ok. simpl. rewrite Ht, Hc.
      destruct (failureCount cb + 1 >=? threshold cb) eqn:Hcmp.
      * repeat split; lia.
      * destruct Hs as [Hs|[Hs1 Hs2]].
        -- rewrite Hs. destruct (state cb); repeat split; try lia; done.
        -- rewrite Hs1 in Hst. lia.
  - simpl. by repeat split.
Qed.

(** A failed call either leaves the breaker open or adds one failure to a
    closed one. *)
Lemma failed_execute (cb : CircuitBreaker) (fn : W -> Outcome E A * W)
    (now tfail : Z) (w : W) :
  breaker_ok cb ->
  is_rejected (fst (fst (fst (execute cb fn now tfail w)))) = true ->
  let cb' := snd (fst (fst (execute cb fn now tfail w))) in
  state cb' = OPEN \/
  (state cb' = CLOSED /\ failureCount cb' = failureCount cb + 1).
Proof.
  intros [HT Hst]. cbn zeta. unfold execute.
  destruct (gate cb now) as [cb1|] eqn:Hg.
  - destruct (gate_config _ _ _ Hg) as (Ht & Hr & Hc & Hs).
    destruct (fn w) as [[a|e] w1]; simpl; [done|]. intros _.
    rewrite Ht, Hc.
    destruct (failureCount cb + 1 >=? threshold cb) eqn:Hcmp; [by left|].
    destruct Hs as [Hs|[Hs1 Hs2]].
    + rewrite Hs. destruct (state cb); [by right | by left | done].
    + rewrite Hs1 in Hst. lia.
  - simpl. intros _. left. unfold gate in Hg.
    destruct (state cb); try done.
Qed.

Lemma failed_run (xs : list (Exec W E A)) :
  forall (cb : CircuitBreaker) (w : W),
    breaker_ok cb ->
    Forall (fun r => is_rejected r = true) (fst (fst (execute_all xs cb w))) ->
    let cb' := snd (fst (execute_all xs cb w)) in
    breaker_ok cb' /\ threshold cb' = threshold cb /\
    resetTimeout cb' = resetTimeout cb /\
    ((xs = [] /\ cb' = cb) \/ state cb' = OPEN \/
     (state cb' = CLOSED /\
      failureCount cb + Z.of_nat (length xs) <= failureCount cb')).
Proof.
  induction xs as [|x rest IH]; intros cb w Hok Hall; cbn zeta.
  - simpl. split; [done|]. split; [done|]. split; [done|]. by left.
  - simpl in Hall |- *. unfold exec1 in *.
    pose proof (execute_keeps_ok cb (x_fn x) (x_now x) (x_tfail x) w Hok)
      as (Hok1 & Ht1 & Hr1).
    pose proof (failed_execute cb (x_fn x) (x_now x) (x_tfail x) w Hok) as Hf.
    destruct (execute cb (x_fn x) (x_now x) (x_tfail x) w)
      as [[[r cb1] w1] tr]. simpl in Hok1, Ht1, Hr1, Hf.
    specialize (IH cb1 w1 Hok1).
    destruct (execute_all rest cb1 w1) as [[rs cb2] w2]. simpl in *.
    inversion Hall as [|? ? Hr Hrs]; subst.
    destruct (IH Hrs) as (Hok2 & Ht2 & Hr2 & Hcase).
    split; [done|]. split; [congruence|]. split; [congruence|]. right.
    destruct Hcase as [[-> ->]|[Hopen|[Hcl Hcnt]]].
    + simpl in *. destruct (Hf Hr) as [Ho|[Hc Hn]]; [by left|right; split; [done|lia]].
    + by left.
    + destruct (Hf Hr) as [Ho|[Hc Hn]].
      * destruct Hok1 as [HT1 Hst1]. rewrite Ho in Hst1.
        destruct Hok2 as [HT2 Hst2]. rewrite Hcl in Hst2. lia.
      * right. split; [done|lia].
Qed.

(** C2 (amended). After as many consecutive failed [execute] calls as the
    threshold the breaker is OPEN. While it is OPEN, a call made no more
    than [resetTimeout] after the last failure is rejected with the
    circuit-open error and the operation is not invoked. A call made more
    than [resetTimeout] after the last failure invokes the operation with
    the breaker HALF_OPEN; its success closes the breaker with a failure
    count of 0, its failure opens it again. *)
Theorem breaker_opens_probes_and_recovers (cb : CircuitBreaker)
    (xs : list (Exec W E A)) (w : W) :
  breaker_ok cb ->
  Z.of_nat (length xs) = threshold cb ->
  Forall (fun r => is_rejected r = true) (fst (fst (execute_all xs cb w))) ->
  let cb1 := snd (fst (execute_all xs cb w)) in
  state cb1 = OPEN /\
  (forall (fn : W -> Outcome E A * W) (now tfail : Z) (w' : W),
      now - lastFailureTime cb1 <= resetTimeout cb1 ->
      execute cb1 fn now tfail w'
        = (Rejected (ThrownError circuit_open_message), cb1, w', [])) /\
  (forall (fn : W -> Outcome E A * W) (now tfail : Z) (w' : W),
      resetTimeout cb1 < now - lastFailureTime cb1 ->
      state <$> gate cb1 now = Some HALF_OPEN /\
      exists cb2,
        execute cb1 fn now tfail w'
          = (match fst (fn w') with
             | Resolved a => Resolved a
             | Rejected e => Rejected (ThrownBy e)
             end, cb2, snd (fn w'), [Invoked]) /\
        match fst (fn w') with
        | Resolved _ => state cb2 = CLOSED /\ failureCount cb2 = 0
        | Rejected _ => state cb2 = OPEN /\ lastFailureTime cb2 = tfail
        end).
Proof.
  intros Hok Hlen Hall. cbn zeta.
  destruct (failed_run xs cb w Hok Hall) as (Hok1 & Ht & Hr & Hcase).
  set (cb1 := snd (fst (execute_all xs cb w))) in *.
  assert (state cb1 = OPEN) as Hopen.
  { destruct Hok as [HT Hst]. destruct Hcase as [[Hnil _]|[Ho|[Hc Hn]]].
    - rewrite Hnil in Hlen. simpl in Hlen. lia.
    - done.
    - destruct Hok1 as [_ Hst1]. rewrite Hc in Hst1.
      destruct (state cb); lia. }
  split; [done|]. split.
  - intros fn now tfail w' Hin. unfold execute, gate. rewrite Hopen.
    replace (now - lastFailureTime cb1 >? resetTimeout cb1) with false
      by (symmetry; lia).
    done.
  - intros fn now tfail w' Hout. unfold execute, gate. rewrite Hopen.
    replace (now - lastFailureTime cb1 >? resetTimeout cb1) with true
      by (symmetry; lia).
    split; [done|].
    destruct (fn w') as [[a|e] w1]; simpl.
    + eexists. split; [reflexivity|]. by simpl.
    + eexists. split; [reflexivity|]. simpl. split; [|done].
      destruct Hok1 as [_ Hst1]. rewrite Hopen in Hst1.
      replace (failureCount cb1 + 1 >=? threshold cb1) with true
        by (symmetry; lia).
      done.
Qed.

End BreakerClaims.

(** Witness of [breaker_opens_probes_and_recovers]: the breaker of the API
    layer (threshold 5, reset timeout 30000) after five failures. *)
Lemma breaker_opens_probes_and_recovers_witness :
  state tripped = OPEN /\
  (forall (fn : nat -> Outcome string string * nat) (now tfail : Z) (w' : nat),
      now - lastFailureTime tripped <= resetTimeout tripped ->
      execute tripped fn now tfail w'
        = (Rejected (ThrownError circuit_open_message), tripped, w', [])) /\
  (forall (fn : nat -> Outcome string string * nat) (now tfail : Z) (w' : nat),
      resetTimeout tripped < now - lastFailureTime tripped ->
      state <$> gate tripped now = Some HALF_OPEN /\
      exists cb2,
        execute tripped fn now tfail w'
          = (match fst (fn w') with
             | Resolved a => Resolved a
             | Rejected e => Rejected (ThrownBy e)
             end, cb2, snd (fn w'), [Invoked]) /\
        match fst (fn w') with
        | Resolved _ => state cb2 = CLOSED /\ failureCount cb2 = 0
        | Rejected _ => state cb2 = OPEN /\ lastFailureTime cb2 = tfail
        end).
Proof.
  apply (breaker_opens_probes_and_recovers apiCircuitBreaker five_failures 0%nat).
  - unfold breaker_ok. simpl. lia.
  - reflexivity.
  - repeat constructor.
Defined.

(** The scenario of the specification on the same breaker: ten seconds
    after the fifth failure a call is rejected without an invocation,
    thirty-one seconds after it the operation is invoked. *)
Lemma breaker_scenario :
  state tripped = OPEN /\ lastFailureTime tripped = 1000 /\
  execute tripped always_succeeds 11000 11001 5%nat
    = (Rejected (ThrownError circuit_open_message), tripped, 5%nat, []) /\
  fst (execute tripped always_succeeds 32000 32001 5%nat)
    = (Resolved "sent", onSuccess (set_state HALF_OPEN tripped), 6%nat).
Proof. repeat split. Qed.

(** C2 as stated fails at the boundary: a breaker with threshold 1 and reset
    timeout 30000 fails once at time 0; the call made exactly 30000 ms later,
    after a wait of at least the reset timeout, is rejected with the
    circuit-open error and the operation is not invoked. *)
Lemma wait_of_exactly_reset_timeout_is_rejected :
  let cb0 := new_CircuitBreaker 1 60000 30000 in
  let cb1 := snd (fst (fst (execute cb0 always_fails 0 0 0%nat))) in
  state cb1 = OPEN /\ lastFailureTime cb1 = 0 /\
  30000 - lastFailureTime cb1 >= resetTimeout cb1 /\
  execute cb1 always_succeeds 30000 30001 1%nat
    = (Rejected (ThrownError circuit_open_message), cb1, 1%nat, []).
Proof. cbn zeta. repeat split. simpl. lia. Qed.

(** ** retryWithBackoff *)

Section RetryClaims.
Context {W E A : Type}.

(** C7. With three attempts and a base delay of 100 ms: an operation that
    fails twice and then succeeds resolves with the value of its third
    invocation, an operation that fails three times rejects with the error
    of its third invocation, and in both runs the operation is invoked
    exactly three times. *)
Theorem retry_three_attempts (fn g : W -> Outcome E A * W) (rnd : Z -> Q)
    (w0 w1 w2 w3 u0 u1 u2 u3 : W) (e1 e2 d1 d2 d3 : E) (v : A) :
  fn w0 = (Rejected e1, w1) ->
  fn w1 = (Rejected e2, w2) ->
  fn w2 = (Resolved v, w3) ->
  g u0 = (Rejected d1, u1) ->
  g u1 = (Rejected d2, u2) ->
  g u2 = (Rejected d3, u3) ->
  retryWithBackoff fn 3 100 rnd w0 = (Resolved v, w3, three_attempts rnd) /\
  retryWithBackoff g 3 100 rnd u0
    = (Rejected (ThrownBy d3), u3, three_attempts rnd) /\
  invocations (three_attempts rnd) = 3%nat.
Proof.
  intros F1 F2 F3 G1 G2 G3. unfold retryWithBackoff.
  change (Z.to_nat 3) with 3%nat. simpl.
  rewrite F1, F2, F3, G1, G2, G3. simpl. done.
Qed.

(** C10. With [maxRetries] below 1 the loop body never runs: the operation
    is not invoked and the promise rejects with the value of the
    unassigned [lastError], that is with [undefined]. *)
Theorem retry_without_attempts (fn : W -> Outcome E A * W)
    (maxRetries baseDelay : Z) (rnd : Z -> Q) (w : W) :
  maxRetries < 1 ->
  retryWithBackoff fn maxRetries baseDelay rnd w
    = (Rejected ThrownUndefined, w, []).
Proof.
  intros Hlt. unfold retryWithBackoff.
  replace (Z.to_nat maxRetries) with 0%nat by lia. reflexivity.
Qed.

End RetryClaims.

Lemma retry_three_attempts_witness :
  retryWithBackoff fails_twice 3 100 no_jitter 0%nat
    = (Resolved "sent", 3%nat, three_attempts no_jitter) /\
  retryWithBackoff fails_numbered 3 100 no_jitter 0%nat
    = (Rejected (ThrownBy "third"), 3%nat, three_attempts no_jitter) /\
  invocations (three_attempts no_jitter) = 3%nat.
Proof.
  apply (retry_three_attempts fails_twice fails_numbered no_jitter
           0%nat 1%nat 2%nat 3%nat 0%nat 1%nat 2%nat 3%nat
           "first" "second" "first" "second" "third" "sent");
    reflexivity.
Defined.

Lemma retry_without_attempts_witness :
  retryWithBackoff fails_twice 0 1000 no_jitter 0%nat
    = (Rejected ThrownUndefined, 0%nat, []).
Proof.
  apply (retry_without_attempts fails_twice 0 1000 no_jitter 0%nat). lia.
Defined.

(** ** withRateLimit *)

Section GateClaims.
Context {W E A : Type}.

Lemma step_resolves_key (cfg : RateLimitConfig) (c : Call) (m m1 : Limits)
    (b : bool) :
  step cfg c m = (Resolved b, m1) -> exists k, call_key cfg c = Resolved k.
Proof.
  unfold step, isAllowed, call_key.
  destruct (getKey cfg (c_args c) (c_ls c)) as [k|exn]; [eauto|done].
Qed.

Lemma remaining_time_nonneg (cfg : RateLimitConfig) (args : list JsValue)
    (ls : LocalStorage) (now : Z) (m : Limits) (t : Z) :
  getRemainingTime cfg args ls now m = Resolved t -> 0 <= t.
Proof.
  unfold getRemainingTime. destruct (getKey cfg args ls); [|done].
  destruct (m !! a) as [e|]; [|intros [= <-]; lia].
  destruct (expired now e) eqn:Hx; intros [= <-]; [lia|].
  unfold expired in Hx. lia.
Qed.

Lemma ceil_seconds_spec (x : Z) :
  1000 * (ceil_seconds x - 1) < x <= 1000 * ceil_seconds x.
Proof.
  unfold ceil_seconds.
  pose proof (Z.div_mod (- x) 1000 ltac:(lia)).
  pose proof (Z.mod_pos_bound (- x) 1000 ltac:(lia)). lia.
Qed.

(** C6. When the limiter turns the call away, the wrapped call rejects
    with an [Error] whose message ends in the number of whole seconds
    [ceil(remainingTime / 1000)] of the limiter's remaining window time;
    the underlying function is not invoked and its world is untouched. *)
Theorem rate_limited_call_fails_fast
    (fn : list JsValue -> W -> Outcome E A * W) (cfg : RateLimitConfig)
    (errorMessage : string) (c : Call) (tremain : Z)
    (limits limits1 : Limits) (w : W) :
  step cfg c limits = (Resolved false, limits1) ->
  exists remainingTime seconds,
    getRemainingTime cfg (c_args c) (c_ls c) tremain limits1
      = Resolved remainingTime /\
    0 <= remainingTime /\
    1000 * (seconds - 1) < remainingTime <= 1000 * seconds /\
    withRateLimit fn cfg errorMessage c tremain limits w
      = (Rejected (ThrownError
           (errorMessage ++ " Try again in " ++ pretty seconds ++ " seconds.")),
         limits1, w, []).
Proof.
  intros Hstep. destruct (step_resolves_key _ _ _ _ _ Hstep) as [k Hk].
  unfold withRateLimit. rewrite Hstep.
  destruct (getRemainingTime cfg (c_args c) (c_ls c) tremain limits1)
    as [t|exn] eqn:Hrem.
  - exists t, (ceil_seconds t). split; [done|].
    split; [by eapply remaining_time_nonneg|].
    split; [apply ceil_seconds_spec|done].
  - unfold getRemainingTime in Hrem. unfold call_key in Hk. rewrite Hk in Hrem.
    destruct (limits1 !! k) as [e|]; [|done].
    by destruct (expired tremain e).
Qed.

End GateClaims.

(** Witness of [rate_limited_call_fails_fast]: one request per ten seconds,
    used at time 0; the call at 2500 ms is turned away. *)
Lemma rate_limited_call_fails_fast_witness :
  exists remainingTime seconds,
    getRemainingTime (plain 1 10000) [] ∅ 2600 (cleanup 2500 one_used)
      = Resolved remainingTime /\
    0 <= remainingTime /\
    1000 * (seconds - 1) < remainingTime <= 1000 * seconds /\
    withRateLimit unit_fn (plain 1 10000) default_rate_limit_message
                  (at_time 2500) 2600 one_used 7%nat
      = (Rejected (ThrownError
           (default_rate_limit_message ++ " Try again in " ++ pretty seconds
              ++ " seconds.")),
         cleanup 2500 one_used, 7%nat, []).
Proof.
  apply (rate_limited_call_fails_fast unit_fn (plain 1 10000)
           default_rate_limit_message (at_time 2500) 2600 one_used
           (cleanup 2500 one_used) 7%nat).
  vm_compute; reflexivity.
Defined.

(** The same call, evaluated: 7400 ms remain, the message says 8 seconds. *)
Example rate_limited_message :
  fst (fst (fst (withRateLimit unit_fn (plain 1 10000) default_rate_limit_message
                   (at_time 2500) 2600 one_used 7%nat)))
  = Rejected (ThrownError
      "Rate limit exceeded. Please try again later. Try again in 8 seconds.").
Proof. vm_compute; reflexivity. Qed.

(** ** handleApiError and withRetry *)



Section WithRetryClaims.
Context {W A : Type}.
Variable operation : W -> Outcome RawError A * W.
Variables maxRetries delay : Z.
Variable context : JsValue.


(** Any other failure with attempts left is followed by a wait of
    [delay * attempt] and by the next attempt. *)
Lemma other_error_continues_loop (remaining : nat) (attempt : Z)
    (lastError : option AppError) (w w1 : W) (ls : LocalStorage)
    (error : RawError) :
  operation w = (Rejected error, w1) ->
  dont_retry (fst (handleApiError error context ls)) = false ->
  attempt <> maxRetries ->
  withRetry_loop operation maxRetries delay context (S remaining) attempt
                 lastError w ls
    = let '(r, w2, ls2, tr) :=
        withRetry_loop operation maxRetries delay context remaining
                       (attempt + 1)
                       (Some (fst (handleApiError error context ls))) w1
                       (snd (handleApiError error context ls)) in
      (r, w2, ls2, Invoked :: Slept (inject_Z (delay * attempt)) :: tr).
Proof.
  intros Hop Hgo Hne. simpl. rewrite Hop.
  destruct (handleApiError error context ls) as [classified ls1].
  simpl in Hgo |- *. rewrite Hgo.
  by destruct (Z.eqb_spec attempt maxRetries).
Qed.



End WithRetryClaims.


(** Both policies on concrete runs of three attempts: the 404 is rethrown
    after one invocation, the 503 after three, with waits of one and two
    times the delay in between. *)
Example withRetry_runs :
  withRetry missing 3 1000 JsUndefined 0%nat ∅
    = (Rejected (ThrownBy (NotFoundError "Resource not found" JsUndefined)),
       1%nat, ∅, [Invoked]) /\
  withRetry unavailable 3 1000 JsUndefined 0%nat ∅
    = (Rejected (ThrownBy (ServerError "Server error occurred" JsUndefined)),
       3%nat, ∅,
       [Invoked; Slept (inject_Z 1000); Invoked; Slept (inject_Z 2000); Invoked]).
Proof. split; reflexivity. Qed.

(** ** The key of the rate-limited single send *)

Section KeyFacts.
Variable JSON_parse : string -> Outcome JsExn JsValue.

(** The body of [sendSingleDocument] is the wrapper over the message
    limiter of 5 requests per 30000 ms. *)
Lemma sendSingleDocument_gate {W E A : Type}
    (post : string -> JsValue -> W -> Outcome E A * W) (rnd : Z -> Q)
    (c : Call) (tremain : Z) (limits : Limits) (st : W * list Event) :
  sendSingleDocument JSON_parse post rnd c tremain limits st
    = withRateLimit (single_send_body post rnd)
        (mkConfig 5 30000 (Some (message_keyGenerator JSON_parse)))
        single_message_text c tremain limits st.
Proof. reflexivity. Qed.

Lemma stored_userId_anonymous (ls : LocalStorage) :
  ls !! "user" = None -> stored_userId JSON_parse ls = Resolved (JsString "anonymous").
Proof. unfold stored_userId, getItem. by intros ->. Qed.

(** The wrapper hands the request object to the key generator as
    [args[0]]; whatever its fields, the key ends in its string form. *)
Lemma message_key_of_request (fields : list (string * JsValue))
    (ls : LocalStorage) :
  message_keyGenerator JSON_parse [JsObject fields] ls
    = match stored_userId JSON_parse ls with
      | Resolved userId =>
          Resolved (js_to_string userId ++ "-[object Object]")
      | Rejected exn => Rejected exn
      end.
Proof. unfold message_keyGenerator. by destruct (stored_userId JSON_parse ls). Qed.

End KeyFacts.

(** C4, evaluated. The send is gated by the limiter of 5 per 30000 ms and the
    user part of the key is the stored userId or "anonymous"; the operation
    part is the string form of the request object, the same for every
    request, and names no operation. *)
Theorem single_send_key :
  maxRequests (messageRateLimiter parse_stored_user) = 5 /\
  windowMs (messageRateLimiter parse_stored_user) = 30000 /\
  call_key (messageRateLimiter parse_stored_user)
           (mkCall [request_a] logged_in 0 0) = Resolved "u1-[object Object]" /\
  call_key (messageRateLimiter parse_stored_user)
           (mkCall [request_b] logged_in 0 0) = Resolved "u1-[object Object]" /\
  call_key (messageRateLimiter parse_stored_user)
           (mkCall [request_a] ∅ 0 0) = Resolved "anonymous-[object Object]".
Proof. repeat split; vm_compute; reflexivity. Qed.

(** ** Captcha *)

Lemma random_index_range (r : Q) :
  Qle (inject_Z 0) r -> Qlt r (inject_Z 1) -> 0 <= random_index r < 36.
Proof.
  destruct r as [n d]. unfold Qle, Qlt, random_index, Qfloor, Qmult, inject_Z.
  change (Z.of_nat (String.length captcha_chars)) with 36.
  cbn [Qnum Qden]. intros Hlo Hhi.
  rewrite Pos.mul_1_r. split.
  - apply Z.div_pos; lia.
  - apply Z.div_lt_upper_bound; lia.
Qed.

Lemma charAt_alnum (i : Z) :
  0 <= i < 36 -> one_alnum (charAt captcha_chars i) = true.
Proof.
  intros Hi.
  assert (forallb (fun n => one_alnum (charAt captcha_chars (Z.of_nat n)))
                  (seq 0 36) = true) as Hall by (vm_compute; reflexivity).
  rewrite forallb_forall in Hall.
  specialize (Hall (Z.to_nat i)). rewrite Z2Nat.id in Hall by lia.
  apply Hall. apply in_seq. lia.
Qed.

Lemma length_snoc (s : string) (ch : ascii) :
  String.length (s ++ String ch EmptyString) = S (String.length s).
Proof. induction s as [|c s IH]; simpl; [done|]. by rewrite IH. Qed.

Lemma all_chars_snoc (p : ascii -> bool) (s : string) (ch : ascii) :
  all_chars p (s ++ String ch EmptyString) = all_chars p s && p ch.
Proof.
  induction s as [|c s IH]; simpl.
  - by rewrite andb_true_r.
  - by rewrite IH, andb_assoc.
Qed.

Lemma generate_loop_spec (rnd : nat -> Q) :
  (forall i, Qle (inject_Z 0) (rnd i) /\ Qlt (rnd i) (inject_Z 1)) ->
  forall (todo i : nat) (s : string),
    String.length (generate_loop rnd todo i s) = (String.length s + todo)%nat /\
    (all_chars alnum_upper s = true ->
     all_chars alnum_upper (generate_loop rnd todo i s) = true).
Proof.
  intros Hrnd. induction todo as [|n IH]; intros i s; simpl.
  - split; [lia|done].
  - destruct (Hrnd i) as [Hlo Hhi].
    pose proof (charAt_alnum _ (random_index_range _ Hlo Hhi)) as Hch.
    destruct (charAt captcha_chars (random_index (rnd i))) as [|ch [|? ?]];
      try discriminate Hch.
    simpl in Hch. destruct (IH (S i) (s ++ String ch EmptyString)) as [Hlen Hal].
    split.
    + rewrite Hlen, length_snoc. lia.
    + intros Hs. apply Hal. by rewrite all_chars_snoc, Hs, Hch.
Qed.


Section CaptchaClaims.
Variable toUpperCase : string -> string.
(** What is used of the built-in: a string of [A-Z0-9] is its own upper
    case. *)
Hypothesis upper_of_code :
  forall s, all_chars alnum_upper s = true -> toUpperCase s = s.


End CaptchaClaims.




(** The widget on concrete codes: the code in any case is valid, its prefix
    is not. *)
Example captcha_runs :
  generateCaptcha draw_first = "AAAAA" /\
  generateCaptcha draw_middle = "SSSSS" /\
  snd (type_input upper_string "sssss" false
         (mkCaptcha "SSSSS" "" false "")) = [true] /\
  snd (type_input upper_string "SSS" false
         (mkCaptcha "SSSSS" "" false "")) = [false].
Proof. repeat split. Qed.

(** ** More on the limiter: sweeps, keys, read-outs *)

Section LimiterMore.
Variable cfg : RateLimitConfig.

Lemma cleanup_lookup (t : Z) (m : Limits) (k : string) :
  cleanup t m !! k =
    match m !! k with
    | Some e => if expired t e then None else Some e
    | None => None
    end.
Proof.
  destruct (m !! k) as [e|] eqn:Hm.
  - destruct (expired t e) eqn:Hx.
    + by apply cleanup_drops with e.
    + by apply cleanup_keeps.
  - by apply cleanup_absent.
Qed.

Lemma cleanup_cleanup (t t' : Z) (m : Limits) :
  t <= t' -> cleanup t' (cleanup t m) = cleanup t' m.
Proof.
  intros Hle. apply map_eq. intros k. rewrite !cleanup_lookup.
  destruct (m !! k) as [e|]; [|done].
  destruct (expired t e) eqn:Hx; [|done].
  replace (expired t' e) with true; [done|].
  unfold expired in *. lia.
Qed.

(** What a call answers and what it leaves under its own key depend only on
    the swept entry of that key. *)
Lemma step_on_key (k : string) (c : Call) (m m' : Limits) :
  call_key cfg c = Resolved k ->
  cleanup (c_sweep c) m !! k = cleanup (c_sweep c) m' !! k ->
  fst (step cfg c m) = fst (step cfg c m') /\
  snd (step cfg c m) !! k = snd (step cfg c m') !! k.
Proof.
  unfold call_key, step, isAllowed. intros -> Heq. rewrite <- Heq.
  destruct (cleanup (c_sweep c) m !! k) as [e|] eqn:Hk; simpl.
  - destruct (expired (c_now c) e); simpl.
    + by rewrite !lookup_insert_eq.
    + destruct (count e >=? maxRequests cfg); simpl.
      * by rewrite Hk, <- Heq.
      * by rewrite !lookup_insert_eq.
  - by rewrite !lookup_insert_eq.
Qed.

Lemma step_other_lookup (k : string) (c : Call) (m : Limits) :
  has_key cfg k c = false ->
  snd (step cfg c m) !! k = cleanup (c_sweep c) m !! k.
Proof.
  unfold has_key, call_key, step, isAllowed. intros Hk.
  destruct (getKey cfg (c_args c) (c_ls c)) as [k'|exn]; simpl; [|done].
  assert (k' <> k) as Hne.
  { intros ->. by rewrite String.eqb_refl in Hk. }
  destruct (cleanup (c_sweep c) m !! k') as [e'|]; simpl.
  - destruct (expired (c_now c) e'); simpl.
    + by rewrite lookup_insert_ne.
    + destruct (count e' >=? maxRequests cfg); simpl; [done|].
      by rewrite lookup_insert_ne.
  - by rewrite lookup_insert_ne.
Qed.

(** X1. Lazy eviction cannot be observed: a sweep made at an earlier time
    changes neither what a later call answers and leaves behind nor what the
    two read-outs report. *)
Theorem sweep_is_unobservable (t : Z) (c : Call) (m : Limits) :
  t <= c_sweep c ->
  step cfg c (cleanup t m) = step cfg c m /\
  (forall args ls now, t <= now ->
     getRemainingTime cfg args ls now (cleanup t m)
       = getRemainingTime cfg args ls now m /\
     getRemainingRequests cfg args ls now (cleanup t m)
       = getRemainingRequests cfg args ls now m).
Proof.
  intros Hle. split.
  - unfold step, isAllowed. by rewrite (cleanup_cleanup t (c_sweep c) m Hle).
  - intros args ls now Hnow. unfold getRemainingTime, getRemainingRequests.
    destruct (getKey cfg args ls) as [k|exn]; [|done].
    rewrite cleanup_lookup. destruct (m !! k) as [e|]; [|done].
    destruct (expired t e) eqn:Hx; [|done].
    replace (expired now e) with true; [done|]. unfold expired in *. lia.
Qed.

(** X2. Keys are independent: a call made earlier under another key, or
    one whose key generator threw, changes neither the answer to a call for
    [k] nor the entry that call leaves for [k]. *)
Theorem other_keys_do_not_interfere (k : string) (c c' : Call) (m : Limits) :
  call_key cfg c = Resolved k ->
  has_key cfg k c' = false ->
  c_sweep c' <= c_sweep c ->
  fst (step cfg c (snd (step cfg c' m))) = fst (step cfg c m) /\
  snd (step cfg c (snd (step cfg c' m))) !! k = snd (step cfg c m) !! k.
Proof.
  intros Hk Hother Hle. apply step_on_key; [done|].
  rewrite cleanup_lookup, (step_other_lookup k c' m Hother), <- cleanup_lookup.
  by rewrite cleanup_cleanup.
Qed.

Lemma step_keeps_entries_ok (t : Z) (c : Call) (m : Limits) :
  1 <= maxRequests cfg ->
  entries_ok cfg t m -> t <= c_sweep c -> c_sweep c <= c_now c ->
  entries_ok cfg (c_now c) (snd (step cfg c m)).
Proof.
  intros HN Hok H1 H2.
  assert (entries_ok cfg (c_now c) (cleanup (c_sweep c) m)) as Hswept.
  { intros k e Hk. apply cleanup_sub in Hk as [Hk _].
    destruct (Hok k e Hk). split; [done|lia]. }
  assert (forall key, entries_ok cfg (c_now c)
            (<[key := fresh_entry cfg (c_now c)]> (cleanup (c_sweep c) m)))
    as Hfresh.
  { intros key k e. rewrite lookup_insert. case_decide.
    - intros [= <-]. simpl. split; lia.
    - apply Hswept. }
  unfold step, isAllowed.
  destruct (getKey cfg (c_args c) (c_ls c)) as [key|exn]; simpl; [|done].
  destruct (cleanup (c_sweep c) m !! key) as [e0|] eqn:Hkey; simpl; [|apply Hfresh].
  destruct (expired (c_now c) e0); simpl; [apply Hfresh|].
  destruct (count e0 >=? maxRequests cfg) eqn:Hfull; simpl; [done|].
  intros k e. rewrite lookup_insert. case_decide; [|apply Hswept].
  intros [= <-]. simpl. destruct (Hswept key e0 Hkey). split; lia.
Qed.

Lemma run_keeps_entries_ok (cs : list Call) :
  forall (t : Z) (m : Limits),
    1 <= maxRequests cfg ->
    entries_ok cfg t m -> chronological t cs ->
    entries_ok cfg (clock_after t cs) (snd (run cfg cs m)).
Proof.
  induction cs as [|c rest IH]; intros t m HN Hok Hchr; [done|].
  destruct Hchr as (H1 & H2 & Hrest). simpl.
  pose proof (step_keeps_entries_ok t c m HN Hok H1 H2) as Hstep.
  destruct (step cfg c m) as [r m1]. simpl in Hstep.
  specialize (IH (c_now c) m1 HN Hstep Hrest).
  by destruct (run cfg rest m1) as [rs m2].
Qed.

Lemma chronological_clock (cs : list Call) :
  forall t, chronological t cs -> t <= clock_after t cs.
Proof.
  induction cs as [|c rest IH]; intros t Hchr; simpl; [lia|].
  destruct Hchr as (H1 & H2 & Hrest). specialize (IH _ Hrest). lia.
Qed.

(** X3. On a limiter that started empty, whatever calls were made in the
    order of the clock, every stored entry counts at least 1 and at most
    [maxRequests], and closes no later than [windowMs] after the last clock
    read. *)
Theorem limiter_entries_stay_bounded (cs : list Call) (t0 : Z)
    (k : string) (e : RateLimitEntry) :
  1 <= maxRequests cfg ->
  chronological t0 cs ->
  snd (run cfg cs ∅) !! k = Some e ->
  1 <= count e <= maxRequests cfg /\
  resetTime e <= clock_after t0 cs + windowMs cfg.
Proof.
  intros HN Hchr Hk.
  assert (entries_ok cfg t0 ∅) as Hempty.
  { intros k' e' H. by rewrite lookup_empty in H. }
  exact (run_keeps_entries_ok cs t0 ∅ HN Hempty Hchr k e Hk).
Qed.

(** X4. On such a limiter the read-outs stay in range: at any later time
    [getRemainingTime] reports between 0 and [windowMs], and
    [getRemainingRequests] between 0 and [maxRequests]. *)
Theorem readouts_stay_in_range (cs : list Call) (t0 now : Z)
    (args : list JsValue) (ls : LocalStorage) :
  1 <= maxRequests cfg ->
  0 <= windowMs cfg ->
  chronological t0 cs ->
  clock_after t0 cs <= now ->
  (forall r, getRemainingTime cfg args ls now (snd (run cfg cs ∅)) = Resolved r ->
     0 <= r <= windowMs cfg) /\
  (forall q, getRemainingRequests cfg args ls now (snd (run cfg cs ∅)) = Resolved q ->
     0 <= q <= maxRequests cfg).
Proof.
  intros HN HW Hchr Hnow.
  assert (entries_ok cfg t0 ∅) as Hempty.
  { intros k' e' H. by rewrite lookup_empty in H. }
  pose proof (run_keeps_entries_ok cs t0 ∅ HN Hempty Hchr) as Hok.
  unfold getRemainingTime, getRemainingRequests.
  destruct (getKey cfg args ls) as [k|exn]; [|by split].
  destruct (snd (run cfg cs ∅) !! k) as [e|] eqn:Hk.
  - destruct (Hok k e Hk) as [Hc Hr].
    destruct (expired now e) eqn:Hx.
    + split; intros ? [= <-]; lia.
    + unfold expired in Hx. split; intros ? [= <-]; lia.
  - split; intros ? [= <-]; lia.
Qed.

(** X5. With a positive maximum, [getRemainingRequests] reports 0 exactly
    when an [isAllowed] call made at the same clock would be refused. *)
Theorem no_requests_left_iff_refused (args : list JsValue) (ls : LocalStorage)
    (t : Z) (m : Limits) :
  1 <= maxRequests cfg ->
  getRemainingRequests cfg args ls t m = Resolved 0 <->
  fst (isAllowed cfg args ls t t m) = Resolved false.
Proof.
  intros HN. unfold getRemainingRequests, isAllowed.
  destruct (getKey cfg args ls) as [k|exn]; [|done].
  rewrite cleanup_lookup. destruct (m !! k) as [e|].
  - destruct (expired t e) eqn:Hx; simpl.
    + split; [intros [= H]; lia|done].
    + rewrite Hx. destruct (count e >=? maxRequests cfg) eqn:Hfull; simpl.
      * split; [done|]. intros _. f_equal. lia.
      * split; [intros [= H]; lia|done].
  - simpl. split; [intros [= H]; lia|done].
Qed.

(** X6. During a window: after [j] calls of one key, the first of which
    opened the window at [t0], the read-outs made before the window closes
    report [maxRequests - j] requests and [t0 + windowMs - now]
    milliseconds; once it has closed they report [maxRequests] and 0. *)
Theorem readouts_during_window (k : string) (c1 : Call) (rest : list Call)
    (m0 : Limits) (args : list JsValue) (ls : LocalStorage) (now : Z) :
  Z.of_nat (length (c1 :: rest)) <= maxRequests cfg ->
  call_key cfg c1 = Resolved k ->
  idle k c1 m0 ->
  Forall (within cfg k (c_now c1 + windowMs cfg)) rest ->
  getKey cfg args ls = Resolved k ->
  let m := snd (run cfg (c1 :: rest) m0) in
  let closes := c_now c1 + windowMs cfg in
  getRemainingRequests cfg args ls now m
    = Resolved (if now >? closes then maxRequests cfg
                else maxRequests cfg - Z.of_nat (length (c1 :: rest))) /\
  getRemainingTime cfg args ls now m
    = Resolved (if now >? closes then 0 else closes - now).
Proof.
  intros Hlen Hk Hidle Hrest Hkey. cbn zeta.
  destruct (step_idle cfg k c1 m0 Hk Hidle) as [_ Hm].
  simpl run. destruct (step cfg c1 m0) as [r mA]. simpl in Hm.
  simpl length in Hlen.
  destruct (run_fills_window cfg k rest mA (fresh_entry cfg (c_now c1)) Hm Hrest)
    as [_ Hfull]; [simpl; lia|].
  destruct (run cfg rest mA) as [rs mB]. simpl in Hfull |- *.
  unfold getRemainingRequests, getRemainingTime. rewrite Hkey, Hfull.
  unfold expired. simpl.
  destruct (now >? c_now c1 + windowMs cfg); [done|].
  split; f_equal; lia.
Qed.

(** X7. Evaluating [useRateLimit] is itself a request. On a key whose open
    window has room the hook reports [isAllowed] true and a number of
    remaining requests that already counts its own call; on a key at the
    maximum it reports false and 0. *)
Theorem hook_uses_a_request (k : string) (c : Call) (ttime trequests : Z)
    (m : Limits) (e : RateLimitEntry) :
  call_key cfg c = Resolved k ->
  m !! k = Some e ->
  c_sweep c <= resetTime e -> c_now c <= resetTime e ->
  ttime <= resetTime e -> trequests <= resetTime e ->
  fst (useRateLimit cfg c ttime trequests m)
    = Resolved
        (if count e >=? maxRequests cfg
         then mkView false (resetTime e - ttime) 0
                     (ceil_seconds (resetTime e - ttime))
         else mkView true (resetTime e - ttime)
                     (maxRequests cfg - (count e + 1))
                     (ceil_seconds (resetTime e - ttime))).
Proof.
  intros Hk Hm Hs Hn Ht Hq.
  assert (expired (c_now c) e = false) as En by (unfold expired; lia).
  assert (expired (c_sweep c) e = false) as Es by (unfold expired; lia).
  unfold useRateLimit. rewrite (step_active cfg k c m e Hk Hm Es En).
  unfold call_key in Hk.
  destruct (count e >=? maxRequests cfg) eqn:Hfull.
  - unfold getRemainingTime, getRemainingRequests.
    rewrite Hk, (cleanup_keeps _ _ _ _ Hm Es).
    replace (expired ttime e) with false by (unfold expired; lia).
    replace (expired trequests e) with false by (unfold expired; lia).
    simpl. do 3 f_equal. lia.
  - unfold getRemainingTime, getRemainingRequests.
    rewrite Hk, lookup_insert_eq. unfold expired. simpl.
    replace (ttime >? resetTime e) with false by lia.
    replace (trequests >? resetTime e) with false by lia.
    simpl. do 3 f_equal. lia.
Qed.

End LimiterMore.

Section GatedRuns.
Context {W E A : Type}.

Lemma gate_follows_step (fn : list JsValue -> W -> Outcome E A * W)
    (cfg : RateLimitConfig) (errorMessage : string) (c : Call) (tremain : Z)
    (m : Limits) (w : W) :
  let '(r, m1, w1, tr) := withRateLimit fn cfg errorMessage c tremain m w in
  m1 = snd (step cfg c m) /\
  invocations tr = (if admitted (fst (step cfg c m)) then 1 else 0)%nat /\
  (admitted (fst (step cfg c m)) = false -> w1 = w).
Proof.
  unfold withRateLimit.
  destruct (step cfg c m) as [[[|]|exn] m1]; simpl.
  - by destruct (fn (c_args c) w) as [[a|e] w1].
  - by destruct (getRemainingTime cfg (c_args c) (c_ls c) tremain m1).
  - done.
Qed.

Lemma invocations_app (tr1 tr2 : list Event) :
  invocations (tr1 ++ tr2) = (invocations tr1 + invocations tr2)%nat.
Proof. unfold invocations. by rewrite List.filter_app, length_app. Qed.

(** X8. Wrapped functions that share a limiter: the limiter ends in the
    state the bare [isAllowed] calls would leave, there is one result per
    call, and the functions are invoked once per admitted call and never
    otherwise. *)
Theorem gated_run_follows_limiter (cfg : RateLimitConfig) (errorMessage : string)
    (cs : list ((list JsValue -> W -> Outcome E A * W) * Call * Z))
    (m : Limits) (w : W) :
  let '(rs, m', _, tr) := gated_run cfg errorMessage cs m w in
  m' = snd (run cfg (List.map gated_call cs) m) /\
  length rs = length cs /\
  invocations tr
    = length (List.filter admitted (fst (run cfg (List.map gated_call cs) m))).
Proof.
  revert m w. induction cs as [|[[fn c] tremain] rest IH]; intros m w; [done|].
  simpl. unfold gated_call at 1 3. simpl.
  pose proof (gate_follows_step fn cfg errorMessage c tremain m w) as Hg.
  destruct (withRateLimit fn cfg errorMessage c tremain m w)
    as [[[r m1] w1] tr1].
  destruct Hg as (-> & Hinv & _).
  specialize (IH (snd (step cfg c m)) w1).
  destruct (gated_run cfg errorMessage rest (snd (step cfg c m)) w1)
    as [[[rs m2] w2] tr2].
  destruct IH as (-> & Hlen & Hcount).
  destruct (step cfg c m) as [r0 m1]. simpl in *.
  destruct (run cfg (List.map gated_call rest) m1) as [rs0 m3]. simpl in *.
  split; [done|]. split; [by rewrite Hlen|].
  rewrite invocations_app, Hinv, Hcount. by destruct (admitted r0).
Qed.

End GatedRuns.

(** ** More on the two retry loops *)

Section RetryMore.
Context {W E A : Type}.
Variable fn : W -> Outcome E A * W.
Variables maxRetries baseDelay : Z.
Variable rnd : Z -> Q.

Lemma retry_loop_spec (remaining : nat) :
  forall (attempt : Z) (lastError : option E) (w : W),
    Z.of_nat (S remaining) = maxRetries - attempt + 1 ->
    let '(r, _, tr) :=
      retry_loop fn maxRetries baseDelay rnd (S remaining) attempt lastError w in
    (1 <= invocations tr <= S remaining)%nat /\
    sleeps tr
      = List.map (fun i => backoff_delay baseDelay i (rnd i))
                 (attempts_from attempt (invocations tr - 1)) /\
    forall t, r = Rejected t ->
      invocations tr = S remaining /\ exists e, t = ThrownBy e.
Proof.
  induction remaining as [|n IH]; intros attempt lastError w Hinv.
  - simpl. destruct (fn w) as [[a|e] w1].
    + unfold invocations. simpl. repeat split; (lia || done).
    + replace (Z.eqb attempt maxRetries) with true by (symmetry; lia).
      unfold invocations. simpl. split; [lia|]. split; [done|].
      intros t [= <-]. split; [done|eauto].
  - specialize (IH (attempt + 1)).
    remember (S n) as m eqn:Hm. simpl.
    destruct (fn w) as [[a|e] w1].
    + unfold invocations. simpl. repeat split; (lia || done).
    + replace (Z.eqb attempt maxRetries) with false by (symmetry; lia).
      specialize (IH (Some e) w1 ltac:(lia)). rewrite Hm in IH |- *.
      destruct (retry_loop fn maxRetries baseDelay rnd (S n) (attempt + 1)
                  (Some e) w1) as [[r w2] tr].
      destruct IH as (Hcount & Hsleeps & Hrej).
      unfold invocations in *. simpl.
      split; [lia|]. split.
      * rewrite Hsleeps.
        destruct (length (List.filter is_invoked tr)) as [|k]; [lia|].
        simpl. by rewrite Nat.sub_0_r.
      * intros t Ht. destruct (Hrej t Ht) as [Hn He]. split; [lia|done].
Qed.

(** X9. [retryWithBackoff] with at least one attempt allowed: the operation
    is invoked at least once and at most [maxRetries] times; there is one
    wait between two invocations and none after the last, the wait after
    attempt [i] being [baseDelay * 2^(i-1)] plus the jitter drawn then; and a
    rejection comes only after all [maxRetries] invocations and carries an
    error of the operation, never [undefined]. *)
Theorem retry_with_backoff_schedule (w : W) :
  1 <= maxRetries ->
  let '(r, _, tr) := retryWithBackoff fn maxRetries baseDelay rnd w in
  (1 <= invocations tr <= Z.to_nat maxRetries)%nat /\
  sleeps tr
    = List.map (fun i => backoff_delay baseDelay i (rnd i))
               (attempts_from 1 (invocations tr - 1)) /\
  forall t, r = Rejected t ->
    invocations tr = Z.to_nat maxRetries /\ exists e, t = ThrownBy e.
Proof.
  intros Hmax. unfold retryWithBackoff.
  destruct (Z.to_nat maxRetries) as [|n] eqn:Hn; [lia|].
  apply (retry_loop_spec n 1 None w). lia.
Qed.

End RetryMore.

Lemma backoff_delay_range (baseDelay attempt : Z) (random : Q) :
  Qle (inject_Z 0) random -> Qlt random (inject_Z 1) ->
  Qle (inject_Z (baseDelay * 2 ^ (attempt - 1)))
      (backoff_delay baseDelay attempt random) /\
  Qlt (backoff_delay baseDelay attempt random)
      (inject_Z (baseDelay * 2 ^ (attempt - 1) + 1000)).
Proof.
  intros Hlo Hhi. unfold backoff_delay.
  set (base := baseDelay * 2 ^ (attempt - 1)).
  rewrite inject_Z_plus.
  assert (Qeq (inject_Z 0) 0%Q) as H0 by reflexivity.
  assert (Qeq (inject_Z 1) 1%Q) as H1 by reflexivity.
  assert (Qeq (inject_Z 1000) 1000%Q) as H1000 by reflexivity.
  rewrite H0 in Hlo. rewrite H1 in Hhi. rewrite H1000.
  split; lra.
Qed.

Section RetryWaits.
Context {W E A : Type}.

(** X10. With every jitter draw in [0,1), each wait of [retryWithBackoff]
    lies at or above the exponential delay of some attempt [i] below
    [maxRetries] and less than one second over it. *)
Theorem backoff_waits_in_range (fn : W -> Outcome E A * W)
    (maxRetries baseDelay : Z) (rnd : Z -> Q) (w : W) :
  1 <= maxRetries ->
  (forall i, Qle (inject_Z 0) (rnd i) /\ Qlt (rnd i) (inject_Z 1)) ->
  Forall (fun d => exists i, 1 <= i < maxRetries /\
                     Qle (inject_Z (baseDelay * 2 ^ (i - 1))) d /\
                     Qlt d (inject_Z (baseDelay * 2 ^ (i - 1) + 1000)))
         (sleeps (snd (retryWithBackoff fn maxRetries baseDelay rnd w))).
Proof.
  intros Hmax Hrnd.
  pose proof (retry_loop_spec fn maxRetries baseDelay rnd
                (Z.to_nat maxRetries - 1) 1 None w ltac:(lia)) as Hspec.
  unfold retryWithBackoff.
  replace (S (Z.to_nat maxRetries - 1)) with (Z.to_nat maxRetries) in Hspec by lia.
  destruct (retry_loop fn maxRetries baseDelay rnd (Z.to_nat maxRetries) 1 None w)
    as [[r w'] tr].
  destruct Hspec as (Hcount & Hsleeps & _). simpl snd. rewrite Hsleeps.
  assert (forall n from, 1 <= from -> from + Z.of_nat n <= maxRetries ->
            Forall (fun i => 1 <= i < maxRetries) (attempts_from from n)) as Hatt.
  { induction n as [|n IHn]; intros from H1 H2; simpl; constructor.
    - lia.
    - apply IHn; lia. }
  specialize (Hatt (invocations tr - 1)%nat 1 ltac:(lia) ltac:(lia)).
  apply List.Forall_map. eapply Forall_impl; [exact Hatt|].
  intros i Hi. simpl. exists i. split; [done|].
  destruct (Hrnd i). by apply backoff_delay_range.
Qed.

End RetryWaits.

Section WithRetryMore.
Context {W A : Type}.
Variable operation : W -> Outcome RawError A * W.
Variables maxRetries delay : Z.
Variable context : JsValue.

Lemma withRetry_loop_waits (remaining : nat) :
  forall (attempt : Z) (lastError : option AppError) (w : W) (ls : LocalStorage),
    Z.of_nat (S remaining) = maxRetries - attempt + 1 ->
    let '(_, _, _, tr) :=
      withRetry_loop operation maxRetries delay context (S remaining) attempt
                     lastError w ls in
    (1 <= invocations tr)%nat /\
    sleeps tr = List.map (fun i => inject_Z (delay * i))
                         (attempts_from attempt (invocations tr - 1)).
Proof.
  induction remaining as [|n IH]; intros attempt lastError w ls Hinv.
  - simpl. destruct (operation w) as [[a|error] w1]; [by unfold invocations|].
    destruct (handleApiError error context ls) as [classified ls1].
    destruct (dont_retry classified); [by unfold invocations|].
    replace (Z.eqb attempt maxRetries) with true by (symmetry; lia).
    by unfold invocations.
  - specialize (IH (attempt + 1)).
    remember (S n) as m eqn:Hm. simpl.
    destruct (operation w) as [[a|error] w1]; [by unfold invocations|].
    destruct (handleApiError error context ls) as [classified ls1].
    destruct (dont_retry classified); [by unfold invocations|].
    replace (Z.eqb attempt maxRetries) with false by (symmetry; lia).
    specialize (IH (Some classified) w1 ls1 ltac:(lia)). rewrite Hm in IH |- *.
    destruct (withRetry_loop operation maxRetries delay context (S n)
                (attempt + 1) (Some classified) w1 ls1) as [[[r w2] ls2] tr].
    destruct IH as [Hcount Hsleeps]. unfold invocations in *. simpl.
    split; [lia|]. rewrite Hsleeps.
    destruct (length (List.filter is_invoked tr)) as [|k]; [lia|].
    simpl. by rewrite Nat.sub_0_r.
Qed.

(** X11. The waits of [withRetry] grow linearly: one wait between two
    invocations and none after the last, the wait after attempt [i] being
    [delay * i]. *)
Theorem withRetry_waits_are_linear (w : W) (ls : LocalStorage) :
  1 <= maxRetries ->
  let tr := snd (withRetry operation maxRetries delay context w ls) in
  sleeps tr = List.map (fun i => inject_Z (delay * i))
                       (attempts_from 1 (invocations tr - 1)).
Proof.
  intros Hmax. cbn zeta. unfold withRetry.
  destruct (Z.to_nat maxRetries) as [|n] eqn:Hn; [lia|].
  pose proof (withRetry_loop_waits n 1 None w ls ltac:(lia)) as Hspec.
  destruct (withRetry_loop operation maxRetries delay context (S n) 1 None w ls)
    as [[[r w2] ls2] tr].
  by destruct Hspec.
Qed.

(** X12. With [maxRetries] below 1 [withRetry] never invokes the operation,
    leaves the storage alone and rejects with the unassigned [lastError],
    that is with [undefined], not with an [AppError]. *)
Theorem withRetry_without_attempts (w : W) (ls : LocalStorage) :
  maxRetries < 1 ->
  withRetry operation maxRetries delay context w ls
    = (Rejected ThrownUndefined, w, ls, []).
Proof.
  intros Hlt. unfold withRetry.
  replace (Z.to_nat maxRetries) with 0%nat by lia. reflexivity.
Qed.

Lemma classified_storage (error : RawError) (ls : LocalStorage) :
  snd (handleApiError error context ls)
    = match err_class (fst (handleApiError error context ls)) with
      | AuthenticationErrorClass => clear_session ls
      | _ => ls
      end.
Proof.
  unfold handleApiError. destruct (raw_response error) as [resp|].
  - repeat match goal with
           | |- context [if ?b then _ else _] => destruct b; [reflexivity|]
           end.
    reflexivity.
  - by destruct (is_string _ _ || is_string _ _).
Qed.

Lemma authentication_is_final (e : AppError) :
  err_class e = AuthenticationErrorClass -> dont_retry e = true.
Proof. intros H. unfold dont_retry, instanceof. by rewrite H. Qed.

Lemma withRetry_loop_storage (remaining : nat) :
  forall (attempt : Z) (lastError : option AppError) (w : W) (ls : LocalStorage),
    let '(r, _, ls', _) :=
      withRetry_loop operation maxRetries delay context (S remaining) attempt
                     lastError w ls in
    match r with
    | Rejected (ThrownBy e) =>
        ls' = match err_class e with
              | AuthenticationErrorClass => clear_session ls
              | _ => ls
              end
    | _ => ls' = ls
    end.
Proof.
  induction remaining as [|n IH]; intros attempt lastError w ls.
  - simpl. destruct (operation w) as [[a|error] w1]; [done|].
    pose proof (classified_storage error ls) as Hst.
    destruct (handleApiError error context ls) as [classified ls1].
    simpl in Hst.
    destruct (dont_retry classified); [done|].
    destruct (Z.eqb attempt maxRetries); [done|]. simpl.
    destruct lastError; simpl; subst ls1.
    all: pose proof (authentication_is_final classified).
    all: destruct (err_class classified); done.
  - specialize (IH (attempt + 1)).
    remember (S n) as m eqn:Hm. simpl.
    destruct (operation w) as [[a|error] w1]; [done|].
    pose proof (classified_storage error ls) as Hst.
    destruct (handleApiError error context ls) as [classified ls1].
    simpl in Hst.
    destruct (dont_retry classified) eqn:Hd; [done|].
    destruct (Z.eqb attempt maxRetries); [done|].
    assert (ls1 = ls) as ->.
    { rewrite Hst. pose proof (authentication_is_final classified) as Hf.
      destruct (err_class classified); try done. rewrite Hf in Hd; done. }
    specialize (IH (Some classified) w1 ls). rewrite Hm in IH |- *.
    by destruct (withRetry_loop operation maxRetries delay context (S n)
                   (attempt + 1) (Some classified) w1 ls) as [[[r w2] ls2] tr].
Qed.

(** X13. [withRetry] clears the stored session exactly when it ends with
    an [AuthenticationError]: then the token and the user are removed; after
    a success or any other rejection the storage is what it was. *)
Theorem withRetry_clears_session_on_401_only (w : W) (ls : LocalStorage) :
  1 <= maxRetries ->
  let '(r, _, ls', _) := withRetry operation maxRetries delay context w ls in
  match r with
  | Rejected (ThrownBy e) =>
      ls' = match err_class e with
            | AuthenticationErrorClass => clear_session ls
            | _ => ls
            end
  | _ => ls' = ls
  end.
Proof.
  intros Hmax. unfold withRetry.
  destruct (Z.to_nat maxRetries) as [|n] eqn:Hn; [lia|].
  apply (withRetry_loop_storage n 1 None w ls).
Qed.

End WithRetryMore.

(** ** More on the circuit breaker *)

Section BreakerMore.
Context {W E A : Type}.

(** X14. What holds of a breaker between calls is kept by every sequence
    of calls, successful or not: the breaker is never left HALF_OPEN, it is
    OPEN exactly when the failure count has reached the threshold, and its
    threshold and reset timeout do not change. *)
Theorem breaker_stays_in_order (xs : list (Exec W E A)) (cb : CircuitBreaker)
    (w : W) :
  breaker_ok cb ->
  let cb' := snd (fst (execute_all xs cb w)) in
  breaker_ok cb' /\
  (state cb' = OPEN <-> threshold cb' <= failureCount cb') /\
  threshold cb' = threshold cb /\ resetTimeout cb' = resetTimeout cb.
Proof.
  intros Hok. cbn zeta.
  assert (breaker_ok (snd (fst (execute_all xs cb w))) /\
          threshold (snd (fst (execute_all xs cb w))) = threshold cb /\
          resetTimeout (snd (fst (execute_all xs cb w))) = resetTimeout cb)
    as (Hok' & Ht & Hr).
  { revert cb w Hok. induction xs as [|x rest IH]; intros cb w Hok; [done|].
    simpl. unfold exec1.
    pose proof (execute_keeps_ok cb (x_fn x) (x_now x) (x_tfail x) w Hok)
      as (Hok1 & Ht1 & Hr1).
    destruct (execute cb (x_fn x) (x_now x) (x_tfail x) w) as [[[r cb1] w1] tr].
    simpl in Hok1, Ht1, Hr1. specialize (IH cb1 w1 Hok1).
    destruct (execute_all rest cb1 w1) as [[rs cb2] w2]. simpl in *.
    destruct IH as (H1 & H2 & H3). split; [done|]. split; congruence. }
  split; [done|]. split; [|done].
  destruct Hok' as [HT Hst].
  destruct (state (snd (fst (execute_all xs cb w)))); split; (done || lia).
Qed.

(** X15. Below the threshold the breaker stays closed: failed calls on a
    closed breaker whose count they do not bring up to the threshold all
    invoke the operation and pass its error on, and leave the breaker CLOSED
    with one more failure counted per call. *)
Theorem breaker_stays_closed_below_threshold (xs : list (Exec W E A))
    (cb : CircuitBreaker) (w : W) :
  state cb = CLOSED ->
  failureCount cb + Z.of_nat (length xs) < threshold cb ->
  Forall (fun r => is_rejected r = true) (fst (fst (execute_all xs cb w))) ->
  let cb' := snd (fst (execute_all xs cb w)) in
  state cb' = CLOSED /\
  failureCount cb' = failureCount cb + Z.of_nat (length xs) /\
  Forall (fun r => exists e, r = Rejected (ThrownBy e))
         (fst (fst (execute_all xs cb w))).
Proof.
  revert cb w. induction xs as [|x rest IH]; intros cb w Hcl Hroom Hall; cbn zeta.
  - simpl. repeat split; (done || lia || constructor).
  - simpl in Hall |- *. unfold exec1, execute, gate in *. rewrite Hcl in *.
    destruct (x_fn x w) as [[a|e] w1].
    + exfalso.
      destruct (execute_all rest (onSuccess cb) w1) as [[rs cb2] w2].
      simpl in Hall. inversion Hall as [|? ? Hr _]. done.
    + assert (state (onFailure (x_tfail x) cb) = CLOSED) as Hcl1.
      { simpl. rewrite Hcl.
        replace (failureCount cb + 1 >=? threshold cb) with false; [done|].
        symmetry. simpl length in Hroom. lia. }
      specialize (IH (onFailure (x_tfail x) cb) w1 Hcl1).
      simpl failureCount in IH. simpl threshold in IH.
      simpl length in Hroom.
      destruct (execute_all rest (onFailure (x_tfail x) cb) w1) as [[rs cb2] w2].
      simpl in *. inversion Hall as [|? ? _ Hrs]; subst.
      destruct (IH ltac:(lia) Hrs) as (H1 & H2 & H3).
      split; [done|]. split; [lia|]. constructor; [eauto|done].
Qed.

(** X16. An open breaker turns away every call made within the reset
    timeout of the last failure: whatever their number, no operation is
    invoked, and neither the breaker nor the time of its last failure
    changes, so the rejected calls do not put off the next probe. *)
Theorem open_breaker_blocks_every_call (xs : list (Exec W E A))
    (cb : CircuitBreaker) (w : W) :
  state cb = OPEN ->
  Forall (fun x => x_now x - lastFailureTime cb <= resetTimeout cb) xs ->
  execute_all xs cb w
    = (repeat (Rejected (ThrownError circuit_open_message)) (length xs), cb, w).
Proof.
  intros Hopen Hall. induction Hall as [|x rest Hx _ IH]; [done|].
  simpl. unfold exec1, execute, gate. rewrite Hopen.
  replace (x_now x - lastFailureTime cb >? resetTimeout cb) with false
    by (symmetry; lia).
  by rewrite IH.
Qed.

End BreakerMore.

(** ** More on the sends of the API layer *)

Section SendsMore.
Context {W E A : Type}.
Variable JSON_parse : string -> Outcome JsExn JsValue.
Variable post : string -> JsValue -> W -> Outcome E A * W.
Variable rnd : Z -> Q.

Lemma withRateLimit_admits (fn : list JsValue -> (W * list Event)
                                 -> Outcome (Thrown E) A * (W * list Event))
    (cfg : RateLimitConfig) (errorMessage : string) (c : Call) (tremain : Z)
    (m : Limits) (st : W * list Event) :
  fst (step cfg c m) = Resolved true ->
  exists r st1,
    withRateLimit fn cfg errorMessage c tremain m st
      = (r, snd (step cfg c m), st1, [Invoked]).
Proof.
  unfold withRateLimit. destruct (step cfg c m) as [r0 m1]. simpl.
  intros ->. destruct (fn (c_args c) st) as [[a|e] st1]; eauto.
Qed.

Lemma withRateLimit_refuses (fn : list JsValue -> (W * list Event)
                                  -> Outcome (Thrown E) A * (W * list Event))
    (cfg : RateLimitConfig) (errorMessage : string) (c : Call) (tremain : Z)
    (m : Limits) (st : W * list Event) :
  fst (step cfg c m) = Resolved false ->
  exists seconds,
    withRateLimit fn cfg errorMessage c tremain m st
      = (Rejected (ThrownError (rate_limit_message errorMessage seconds)),
         snd (step cfg c m), st, []).
Proof.
  intros Hstep.
  destruct (step cfg c m) as [r0 m1] eqn:Hs. simpl in Hstep. subst r0.
  destruct (step_resolves_key _ _ _ _ _ Hs) as [k Hk].
  unfold withRateLimit. rewrite Hs. simpl.
  unfold getRemainingTime. unfold call_key in Hk. rewrite Hk.
  destruct (m1 !! k) as [e|]; [|eauto].
  destruct (expired tremain e); eauto.
Qed.

(** X17. One [sendSingleDocument] call posts at most three times; a call
    the limiter does not admit posts nothing and leaves the world of the
    network untouched. *)
Theorem single_send_posts_at_most_thrice (c : Call) (tremain : Z)
    (m : Limits) (w : W) :
  let '(_, _, st, _) :=
    sendSingleDocument JSON_parse post rnd c tremain m (w, []) in
  (invocations (snd st) <= 3)%nat /\
  (admitted (fst (step (messageRateLimiter JSON_parse) c m)) = false ->
   st = (w, [])).
Proof.
  unfold sendSingleDocument, withRateLimit.
  destruct (step (messageRateLimiter JSON_parse) c m) as [[[|]|exn] m1]; simpl.
  - unfold single_send_body.
    destruct (single_form (js_index (c_args c) 0)) as [formData|exn]; simpl.
    + pose proof (retry_loop_spec (post "/send/single-document" formData)
                    3 1000 rnd 2 1 None w ltac:(lia)) as Hspec.
      unfold retryWithBackoff. change (Z.to_nat 3) with 3%nat.
      destruct (retry_loop (post "/send/single-document" formData) 3 1000 rnd
                  3 1 None w) as [[[a|e] w1] tr]; simpl.
      all: destruct Hspec as ([_ Hle] & _); by split.
    + unfold invocations. simpl. split; [lia|done].
  - destruct (getRemainingTime _ _ _ _ _); unfold invocations; simpl;
      split; (lia || done).
  - unfold invocations. simpl. split; (lia || done).
Qed.

Lemma filter_pdf_others (files : list JsValue) :
  List.filter is_pdf_field (List.map (fun file => ("pdfFiles", file)) files)
    = List.map (fun file => ("pdfFiles", file)) files /\
  List.filter is_document_field
    (List.map (fun file => ("pdfFiles", file)) files) = [].
Proof.
  induction files as [|f rest [IH1 IH2]]; [done|]. simpl.
  by rewrite IH1, IH2.
Qed.

(** X18. The form of [sendBulkDocument] carries every PDF of the request
    once and in order: the first as [documentFile], the others as
    [pdfFiles]; with no PDF there is no [documentFile] field at all. *)
Theorem bulk_form_carries_every_pdf (fields : list (string * JsValue))
    (files : list JsValue) :
  assoc_get "pdfFiles" fields = JsArray files ->
  exists form,
    bulk_form (JsObject fields) = Resolved form /\
    pdf_parts form = files /\
    length (List.filter is_document_field form) = Nat.min 1 (length files) /\
    length form = (4 + length files)%nat.
Proof.
  intros Hpdf. unfold bulk_form, opt_prop. simpl. rewrite Hpdf. simpl.
  eexists. split; [reflexivity|].
  destruct (filter_pdf_others (skipn 1 files)) as [H1 H2].
  unfold pdf_parts. destruct files as [|f rest]; simpl.
  - done.
  - simpl in H1, H2. rewrite H1, H2, List.map_map, List.map_id, length_map. simpl.
    done.
Qed.

Lemma bulk_send_is_gate (uploaded : bool) (c : Call) (tremain : Z)
    (m : Limits) (st : W * list Event) :
  exists fn,
    bulk_send JSON_parse uploaded post rnd c tremain m st
      = withRateLimit fn (fileUploadRateLimiter JSON_parse) bulk_message_text
                      c tremain m st.
Proof. destruct uploaded; eexists; reflexivity. Qed.

(** X19. The two bulk sends share one quota: after three bulk sends of a
    user within a minute, in any mix of [sendBulkDocument] and
    [sendBulkDatabasePDF], a fourth of either kind is turned away with the
    wait message; nothing is posted for it. *)
Theorem bulk_sends_share_quota (k : string) (c1 c2 c3 c4 : Call)
    (t1 t2 t3 t4 : Z) (b1 b2 b3 b4 : bool) (m : Limits) (st : W * list Event) :
  call_key (fileUploadRateLimiter JSON_parse) c1 = Resolved k ->
  idle k c1 m ->
  Forall (within (fileUploadRateLimiter JSON_parse) k (c_now c1 + 60000))
         [c2; c3; c4] ->
  let '(_, m1, st1, _) := bulk_send JSON_parse b1 post rnd c1 t1 m st in
  let '(_, m2, st2, _) := bulk_send JSON_parse b2 post rnd c2 t2 m1 st1 in
  let '(_, m3, st3, _) := bulk_send JSON_parse b3 post rnd c3 t3 m2 st2 in
  let '(r4, _, st4, tr4) := bulk_send JSON_parse b4 post rnd c4 t4 m3 st3 in
  (exists seconds,
     r4 = Rejected (ThrownError (rate_limit_message bulk_message_text seconds))) /\
  st4 = st3 /\ tr4 = [].
Proof.
  intros Hk Hidle Hall.
  inversion Hall as [|? ? Hw2 Hall2]; subst.
  inversion Hall2 as [|? ? Hw3 Hall3]; subst.
  inversion Hall3 as [|? ? Hw4 _]; subst.
  destruct (step_idle (fileUploadRateLimiter JSON_parse) k c1 m Hk Hidle) as [Hr1 Hm1].
  destruct (run_fills_window (fileUploadRateLimiter JSON_parse) k [c2; c3] (snd (step (fileUploadRateLimiter JSON_parse) c1 m))
              (fresh_entry (fileUploadRateLimiter JSON_parse) (c_now c1)) Hm1) as [Hres Hm3].
  { constructor; [exact Hw2|]. constructor; [exact Hw3|]. constructor. }
  { simpl. lia. }
  simpl in Hres, Hm3.
  destruct (bulk_send_is_gate b1 c1 t1 m st) as [f1 ->].
  destruct (withRateLimit_admits f1 (fileUploadRateLimiter JSON_parse) bulk_message_text c1 t1 m st Hr1)
    as (r1 & st1 & ->).
  destruct (step (fileUploadRateLimiter JSON_parse) c2 (snd (step (fileUploadRateLimiter JSON_parse) c1 m))) as [q2 m2] eqn:Hs2.
  destruct (step (fileUploadRateLimiter JSON_parse) c3 m2) as [q3 m3] eqn:Hs3.
  simpl in Hres, Hm3.
  inversion Hres as [|? ? Hq2 Hres']; subst.
  inversion Hres' as [|? ? Hq3 _]; subst.
  destruct (bulk_send_is_gate b2 c2 t2 (snd (step (fileUploadRateLimiter JSON_parse) c1 m)) st1) as [f2 ->].
  destruct (withRateLimit_admits f2 (fileUploadRateLimiter JSON_parse) bulk_message_text c2 t2
              (snd (step (fileUploadRateLimiter JSON_parse) c1 m)) st1) as (r2 & st2 & ->);
    [by rewrite Hs2|].
  rewrite Hs2. simpl snd.
  destruct (bulk_send_is_gate b3 c3 t3 m2 st2) as [f3 ->].
  destruct (withRateLimit_admits f3 (fileUploadRateLimiter JSON_parse) bulk_message_text c3 t3 m2 st2)
    as (r3 & st3 & ->); [by rewrite Hs3|].
  rewrite Hs3. simpl snd.
  destruct (bulk_send_is_gate b4 c4 t4 m3 st3) as [f4 ->].
  destruct Hw4 as (Hk4 & Hsw4 & Hn4).
  assert (fst (step (fileUploadRateLimiter JSON_parse) c4 m3) = Resolved false) as Hrej.
  { rewrite (step_active (fileUploadRateLimiter JSON_parse) k c4 m3 _ Hk4 Hm3);
      [|unfold expired; simpl; lia|unfold expired; simpl; lia].
    simpl. done. }
  destruct (withRateLimit_refuses f4 (fileUploadRateLimiter JSON_parse) bulk_message_text c4 t4 m3 st3 Hrej)
    as [seconds ->].
  split; [eauto|done].
Qed.

End SendsMore.

(** ** More on the error handlers and the response interceptor *)

Lemma clear_session_lookup (ls : LocalStorage) (k : string) :
  clear_session ls !! k
    = if decide (k = "user") then None
      else if decide (k = "token") then None else ls !! k.
Proof.
  unfold clear_session, removeItem.
  rewrite lookup_delete. case_decide; [by subst; case_decide|].
  case_decide; [congruence|].
  rewrite lookup_delete. case_decide; [by subst; case_decide|].
  by case_decide; [congruence|].
Qed.



(** X21. The message shown to the user is never empty, and for a failure
    without response and for the statuses 401, 403, 500, 502, 503 and 504 it
    is a fixed text: what the server sent as message is not shown. *)
Theorem user_message_is_never_empty (error : RawError) (context : JsValue)
    (ls : LocalStorage) (e : AppError) :
  getErrorMessage e <> "" /\
  let shown := getErrorMessage (fst (handleApiError error context ls)) in
  match raw_response error with
  | None =>
      shown = "Unable to connect to the server. Please check your internet connection and try again."
  | Some resp =>
      (resp_status resp = 401 ->
         shown = "Your session has expired. Please log in again.") /\
      (resp_status resp = 403 ->
         shown = "You do not have permission to perform this action.") /\
      (resp_status resp = 500 \/ resp_status resp = 502 \/
       resp_status resp = 503 \/ resp_status resp = 504 ->
         shown = "Server error occurred. Please try again later.")
  end.
Proof.
  split.
  - unfold getErrorMessage, instanceof, own_message_or.
    destruct (err_class e); simpl; try done.
    all: destruct (String.eqb_spec (err_message e) ""); done.
  - cbn zeta. unfold handleApiError. destruct (raw_response error) as [resp|].
    + split; [|split].
      * by intros ->.
      * by intros ->.
      * by intros [->|[->|[->| ->]]].
    + by destruct (is_string _ _ || is_string _ _).
Qed.

Section InterceptorClaims.
Variable JSON_parse : string -> Outcome JsExn JsValue.
Variable toUpperCase : string -> string.
Variables timestamp href : string.

Lemma file_error_storage (error : RawError) (context : JsValue)
    (ls : LocalStorage) :
  snd (handleFileUploadError error context ls) = ls \/
  snd (handleFileUploadError error context ls) = clear_session ls.
Proof.
  unfold handleFileUploadError.
  repeat match goal with
         | |- context [if is_string ?a ?b then _ else _] =>
             destruct (is_string a b); [by left|]
         end.
  rewrite classified_storage.
  destruct (err_class _); auto.
Qed.

Lemma whatsapp_error_storage (failure : Failure) (context : JsValue)
    (ls : LocalStorage) :
  snd (handleWhatsAppError failure context ls) = ls \/
  snd (handleWhatsAppError failure context ls) = clear_session ls.
Proof.
  unfold handleWhatsAppError.
  destruct (mentions_whatsapp _) as [[|]|exn]; simpl; auto.
  pose proof (classified_storage context (f_error failure) ls) as Hst.
  destruct (handleApiError (f_error failure) context ls) as [e ls1].
  simpl in *. rewrite Hst. destruct (err_class e); auto.
Qed.

Lemma clear_session_twice (ls : LocalStorage) :
  clear_session (clear_session ls) = clear_session ls.
Proof.
  apply map_eq. intros k. rewrite !clear_session_lookup.
  by repeat case_decide.
Qed.

(** The end of the interceptor, once the handler has left one of the two
    possible storages. *)
Ltac interceptor_tail Hst :=
  match goal with
  | |- context [if ?cond then _ else _] =>
      let Hcond := fresh "Hcond" in
      destruct cond eqn:Hcond;
      [ apply andb_true_iff in Hcond as [? Hurl];
        apply negb_true_iff in Hurl;
        assert (forall x y : LocalStorage,
                  (y = x \/ y = clear_session x) ->
                  clear_session y = clear_session x) as Hclear
          by (intros x y [->| ->]; [done|apply clear_session_twice]);
        split; [right; by apply Hclear|];
        split; [done|]; split; [by apply Hclear|];
        split; [done|]; split; [done|eauto]
      | by split ]
  end.

(** The storage the chosen handler leaves is the one it found, or that one
    without the session. *)
Lemma interceptor_cases (failure : Failure) (ls : LocalStorage) :
  let '(thrown, ls', redirect) :=
    response_interceptor JSON_parse toUpperCase timestamp href failure ls in
  (ls' = ls \/ ls' = clear_session ls) /\
  match redirect with
  | Some page =>
      page = "/login" /\ ls' = clear_session ls /\
      response_status_is failure 401 = true /\
      url_has (f_url failure) "/auth/login" = false /\
      exists e, thrown = ThrownBy e
  | None =>
      forall e, thrown = ThrownBy e ->
        response_status_is failure 401
          && negb (url_has (f_url failure) "/auth/login") = false
  end.
Proof.
  unfold response_interceptor.
  destruct (createErrorContext _ _ _ _ _ _) as [context|exn]; [|by split; [left|]].
  destruct (url_has (f_url failure) "/send/" || url_has (f_url failure) "/whatsapp").
  - pose proof (whatsapp_error_storage failure context ls) as Hst.
    destruct (handleWhatsAppError failure context ls) as [[handledError|exn] ls1];
      simpl in Hst; [|by split].
    interceptor_tail Hst.
  - destruct (url_has (f_url failure) "/upload" || url_has (f_url failure) "/file").
    + pose proof (file_error_storage (f_error failure) context ls) as Hst.
      destruct (handleFileUploadError (f_error failure) context ls)
        as [handledError ls1]; simpl in Hst.
      interceptor_tail Hst.
    + assert (snd (handleApiError (f_error failure) context ls) = ls \/
              snd (handleApiError (f_error failure) context ls) = clear_session ls)
        as Hst.
      { rewrite classified_storage. destruct (err_class _); auto. }
      destruct (handleApiError (f_error failure) context ls)
        as [handledError ls1]; simpl in Hst.
      interceptor_tail Hst.
Qed.

(** X22. The response interceptor sends the page nowhere but to [/login],
    and only for a 401 whose URL does not contain [/auth/login] and that it
    rejects with a classified error; the session is then cleared. Whatever
    the failure, no key of the storage other than the token and the user
    changes. *)
Theorem interceptor_redirects_on_401_only (failure : Failure)
    (ls : LocalStorage) :
  let '(thrown, ls', redirect) :=
    response_interceptor JSON_parse toUpperCase timestamp href failure ls in
  (redirect = None \/ redirect = Some "/login") /\
  (redirect = Some "/login" <->
     (exists e, thrown = ThrownBy e) /\
     response_status_is failure 401 = true /\
     url_has (f_url failure) "/auth/login" = false) /\
  (redirect = Some "/login" ->
     ls' !! "token" = None /\ ls' !! "user" = None) /\
  (forall k, k <> "token" -> k <> "user" -> ls' !! k = ls !! k).
Proof.
  pose proof (interceptor_cases failure ls) as Hc.
  destruct (response_interceptor JSON_parse toUpperCase timestamp href failure ls)
    as [[thrown ls'] redirect].
  destruct Hc as [Hst Hred].
  assert (forall k, k <> "token" -> k <> "user" -> ls' !! k = ls !! k) as Hframe.
  { intros k H1 H2. destruct Hst as [->| ->]; [done|].
    rewrite clear_session_lookup. by repeat case_decide. }
  destruct redirect as [page|].
  - destruct Hred as (-> & -> & H401 & Hurl & He).
    split; [by right|]. split; [by split|]. split; [|done].
    intros _. by rewrite !clear_session_lookup.
  - split; [by left|]. split; [|by split].
    split; [done|]. intros ([e He] & H401 & Hurl).
    specialize (Hred e He). rewrite H401, Hurl in Hred. done.
Qed.

(** X23. A 401 that reaches [handleApiError] clears the session whatever
    the URL is, the login URL included: the check for [/auth/login] only
    decides whether the page is sent to [/login]. *)
Theorem unauthorized_clears_session_even_at_login (failure : Failure)
    (ls : LocalStorage) :
  response_status_is failure 401 = true ->
  url_has (f_url failure) "/send/" = false ->
  url_has (f_url failure) "/whatsapp" = false ->
  url_has (f_url failure) "/upload" = false ->
  url_has (f_url failure) "/file" = false ->
  let '(thrown, ls', redirect) :=
    response_interceptor JSON_parse toUpperCase timestamp href failure ls in
  forall e, thrown = ThrownBy e ->
    err_class e = AuthenticationErrorClass /\
    ls' = clear_session ls /\
    (redirect = None <-> url_has (f_url failure) "/auth/login" = true).
Proof.
  intros H401 H1 H2 H3 H4. unfold response_interceptor.
  rewrite H1, H2, H3, H4, H401. simpl.
  destruct (createErrorContext _ _ _ _ _ _) as [context|exn]; [|done].
  unfold response_status_is in H401. unfold handleApiError.
  destruct (raw_response (f_error failure)) as [resp|]; [|done].
  apply Z.eqb_eq in H401. rewrite H401. simpl.
  destruct (url_has (f_url failure) "/auth/login"); simpl.
  - intros e [= <-]. by repeat split.
  - intros e [= <-]. split; [done|]. split; [apply clear_session_twice|].
    by split.
Qed.

(** X24. When the stored user is not valid JSON the interceptor fails
    before it classifies anything: it rejects with the exception of the
    parser instead of an [AppError], and even for a 401 it neither clears the
    session nor redirects. *)
Theorem interceptor_fails_on_unreadable_user (failure : Failure)
    (ls : LocalStorage) (text : string) (exn : JsExn) :
  ls !! "user" = Some text ->
  text <> "" ->
  JSON_parse text = Rejected exn ->
  response_interceptor JSON_parse toUpperCase timestamp href failure ls
    = (ThrownExn exn, ls, None).
Proof.
  intros Hls Hne Hparse.
  unfold response_interceptor, createErrorContext, getItem.
  rewrite Hls. simpl.
  replace (String.eqb text "") with false
    by (symmetry; by apply String.eqb_neq).
  simpl. by rewrite Hparse.
Qed.

End InterceptorClaims.

(** ** The mount of the Captcha *)

Section MountClaims.
Variable toUpperCase : string -> string.

(** X25. On mount the widget reports valid once, for the empty input
    against the code that is not there yet, and then invalid, once the
    generated code is in place; it ends with that code, an empty input and
    validity false. *)
Theorem captcha_mount_reports_valid_first (rnd : nat -> Q) :
  (forall i, Qle (inject_Z 0) (rnd i) /\ Qlt (rnd i) (inject_Z 1)) ->
  mount toUpperCase rnd
    = (mkCaptcha (generateCaptcha rnd) "" false "", [true; false]).
Proof.
  intros Hrnd.
  destruct (generate_loop_spec rnd Hrnd 5 0 "") as [Hlen _].
  fold (generateCaptcha rnd) in Hlen. simpl in Hlen.
  unfold mount, validation_effect, isValidInput, commit, deps_changed.
  simpl. rewrite String.eqb_refl. simpl.
  destruct (generateCaptcha rnd) as [|ch rest] eqn:Hcode; [discriminate Hlen|].
  simpl. unfold validation_effect, isValidInput. simpl.
  by rewrite andb_false_r.
Qed.

End MountClaims.

(** ** validateForm and validatePhoneNumber *)

Lemma validateForm_fold (vs : list ValidationResult) :
  forall (ok : bool) (errs : list string),
    fold_left
      (fun (acc : bool * list string) validation =>
         if negb (vr_isValid validation)
         then (false, (snd acc ++ vr_errors validation)%list)
         else acc)
      vs (ok, errs)
    = (ok && forallb vr_isValid vs,
       (errs ++ flat_map (fun v => if vr_isValid v then [] else vr_errors v) vs)%list).
Proof.
  induction vs as [|v rest IH]; intros ok errs; simpl.
  - by rewrite andb_true_r, app_nil_r.
  - destruct (vr_isValid v); simpl.
    + by rewrite IH.
    + rewrite IH. simpl. by rewrite andb_false_r, <- app_assoc.
Qed.

(** X26. [validateForm] is valid exactly when every result is valid, and
    its errors are the errors of the invalid results in order; what a valid
    result carries as errors is dropped. *)
Theorem validateForm_collects (vs : list ValidationResult) :
  vr_isValid (validateForm vs) = forallb vr_isValid vs /\
  vr_errors (validateForm vs)
    = flat_map (fun v => if vr_isValid v then [] else vr_errors v) vs /\
  ((forall v, In v vs -> vr_isValid v = false -> vr_errors v <> []) ->
   (vr_isValid (validateForm vs) = true <-> vr_errors (validateForm vs) = [])).
Proof.
  unfold validateForm. rewrite validateForm_fold. simpl.
  split; [done|]. split; [done|].
  intros Hne. induction vs as [|v rest IH]; simpl; [done|].
  destruct (vr_isValid v) eqn:Hv; simpl.
  - apply IH. intros v' Hin. apply Hne. by right.
  - split; [done|]. intros Happ. apply app_eq_nil in Happ as [He _].
    exfalso. by apply (Hne v (or_introl eq_refl) Hv).
Qed.

Lemma keep_digits_all (s : string) : all_chars is_digit (keep_digits s) = true.
Proof.
  induction s as [|ch rest IH]; simpl; [done|].
  destruct (is_digit ch) eqn:Hd; simpl; [by rewrite Hd|done].
Qed.

Lemma phone_format (c : string) :
  all_chars is_digit c = true ->
  existsb (fun pattern => pattern c) phone_patterns = true <->
  String.length c = 10%nat \/
  (String.length c = 12%nat /\ exists rest, c = String "9" (String "1" rest)).
Proof.
  intros Hd. unfold phone_patterns, digits_exactly. simpl.
  rewrite Hd, andb_true_r, orb_false_r.
  destruct c as [|a [|b rest]]; simpl in *.
  - split; [done|]. intros [H|[H _]]; discriminate H.
  - apply andb_true_iff in Hd as [Ha _].
    rewrite andb_false_r. simpl.
    split; [done|]. intros [H|[H _]]; discriminate H.
  - apply andb_true_iff in Hd as [Ha Hd]. apply andb_true_iff in Hd as [Hb Hd].
    rewrite Hb, Hd. simpl. rewrite !andb_true_r.
    destruct (Nat.eqb_spec (String.length rest) 10) as [H10|H10];
      destruct (Nat.eqb_spec (String.length rest) 8) as [H8|H8]; try lia.
    rewrite andb_true_r, andb_false_r, orb_false_r.
    split.
    + intros H. apply andb_true_iff in H as [E9 E1].
      apply Ascii.eqb_eq in E9, E1. subst. right. split; [lia|eauto].
    + intros [H|[_ [rest' [= -> -> _]]]]; [lia|]. done.
Qed.

(** X27. A phone number that is not empty is valid exactly when its digits
    are 10 in number, or 12 in number starting with 91; any other count of
    digits up to 15 is turned down by the format although the length check
    lets it pass. The sanitized value is the digits alone. *)
Theorem phone_valid_iff (phone : string) :
  phone <> "" ->
  let cleaned := keep_digits phone in
  (vr_isValid (validatePhoneNumber phone) = true <->
     String.length cleaned = 10%nat \/
     (String.length cleaned = 12%nat /\
      exists rest, cleaned = String "9" (String "1" rest))) /\
  vr_sanitizedValue (validatePhoneNumber phone) = JsString cleaned /\
  all_chars is_digit cleaned = true.
Proof.
  intros Hne. cbn zeta. unfold validatePhoneNumber.
  replace (String.eqb phone "") with false
    by (symmetry; by apply String.eqb_neq).
  pose proof (phone_format (keep_digits phone) (keep_digits_all phone)) as Hf.
  split; [|split; [done|apply keep_digits_all]].
  cbn [vr_isValid].
  set (fmt := existsb (fun pattern => pattern (keep_digits phone)) phone_patterns)
    in *.
  destruct fmt eqn:Hfmt; cbn [negb].
  - pose proof (proj1 Hf eq_refl) as Hcase. split; [by intros _|].
    intros _. by destruct Hcase as [H|[H _]]; rewrite H.
  - split.
    + intros H. exfalso.
      destruct (String.length (keep_digits phone) <? 10)%nat;
        destruct (15 <? String.length (keep_digits phone))%nat; discriminate H.
    + intros H. apply Hf in H. discriminate H.
Qed.

(** ** throttle and debounce *)

Section TimerClaims.
Context {W E A : Type}.
Variable func : list JsValue -> W -> Outcome E A * W.

Lemma in_order_later (evs : list TimerEvent) (t t' : Z) :
  t <= t' -> in_order t' evs -> in_order t evs.
Proof. destruct evs as [|ev rest]; simpl; [done|]. intros ? [? ?]. split; [lia|done]. Qed.

Lemma throttle_log_times (limit : Z) (evs : list TimerEvent) :
  forall (t : Z) (st : ThrottleState) (w : W),
    in_order t evs ->
    Forall (fun x => t <= fst x) (snd (throttle_run func limit evs st w)).
Proof.
  induction evs as [|ev rest IH]; intros t st w Hord; simpl; [constructor|].
  destruct Hord as [Ht Hrest].
  assert (in_order t rest) as Hrest' by (by apply in_order_later with (event_time ev)).
  destruct ev as [tc args|tf]; simpl in *.
  - destruct (inThrottle st); simpl.
    + specialize (IH t st w Hrest').
      by destruct (throttle_run func limit rest st w) as [[st2 w2] log2].
    + destruct (func args w) as [[a|e] w1].
      * specialize (IH t (mkThrottle true (Some (tc + limit))) w1 Hrest').
        destruct (throttle_run func limit rest _ w1) as [[st2 w2] log2].
        simpl in *. by constructor.
      * specialize (IH t st w1 Hrest').
        destruct (throttle_run func limit rest st w1) as [[st2 w2] log2].
        simpl in *. by constructor.
  - destruct (throttle_due st) as [due|].
    + destruct (Z.leb due tf).
      * specialize (IH t (mkThrottle false None) w Hrest').
        by destruct (throttle_run func limit rest _ w) as [[st2 w2] log2].
      * specialize (IH t st w Hrest').
        by destruct (throttle_run func limit rest st w) as [[st2 w2] log2].
    + specialize (IH t st w Hrest').
      by destruct (throttle_run func limit rest st w) as [[st2 w2] log2].
Qed.

Lemma first_from_times (bound t : Z) (log : list (Z * bool)) :
  bound <= t -> Forall (fun x => t <= fst x) log -> first_at_least bound log.
Proof.
  intros Hb Hall. destruct log as [|[t' r] rest]; simpl; [done|].
  inversion Hall; subst. simpl in *. lia.
Qed.

Lemma throttle_run_spaced (limit : Z) (evs : list TimerEvent) :
  forall (t : Z) (st : ThrottleState) (w : W),
    in_order t evs ->
    let log := snd (throttle_run func limit evs st w) in
    spaced limit log /\
    (forall bound, inThrottle st = true -> throttle_due st = Some bound ->
                   first_at_least bound log).
Proof.
  induction evs as [|ev rest IH]; intros t st w Hord; cbn zeta; simpl; [done|].
  destruct Hord as [Ht Hrest].
  destruct ev as [tc args|tf]; simpl in *.
  - destruct (inThrottle st) eqn:Hin; simpl.
    + specialize (IH tc st w Hrest).
      destruct (throttle_run func limit rest st w) as [[st2 w2] log2].
      simpl in *. destruct IH as [IH1 IH2]. split; [done|].
      intros bound _ Hdue. by apply IH2.
    + destruct (func args w) as [[a|e] w1].
      * specialize (IH tc (mkThrottle true (Some (tc + limit))) w1 Hrest).
        destruct (throttle_run func limit rest _ w1) as [[st2 w2] log2].
        simpl in *. destruct IH as [IH1 IH2]. split; [|done].
        split; [|done]. specialize (IH2 (tc + limit) eq_refl eq_refl).
        destruct log2 as [|[t' r'] rest2]; [done|]. by intros _.
      * specialize (IH tc st w1 Hrest).
        destruct (throttle_run func limit rest st w1) as [[st2 w2] log2].
        simpl in *. destruct IH as [IH1 IH2]. split; [|done].
        split; [|done]. by destruct log2 as [|[t' r'] rest2].
  - destruct (throttle_due st) as [due|] eqn:Hdue.
    + destruct (Z.leb due tf) eqn:Hle.
      * pose proof (throttle_log_times limit rest tf (mkThrottle false None) w Hrest)
          as Htimes.
        specialize (IH tf (mkThrottle false None) w Hrest).
        destruct (throttle_run func limit rest _ w) as [[st2 w2] log2].
        simpl in *. destruct IH as [IH1 _]. split; [done|].
        intros bound _ [= <-]. apply Z.leb_le in Hle.
        by apply first_from_times with tf.
      * specialize (IH tf st w Hrest).
        destruct (throttle_run func limit rest st w) as [[st2 w2] log2].
        simpl in *. destruct IH as [IH1 IH2]. split; [done|].
        intros bound Hin Hb. apply IH2; [done|]. by rewrite Hdue.
    + specialize (IH tf st w Hrest).
      destruct (throttle_run func limit rest st w) as [[st2 w2] log2].
      simpl in *. destruct IH as [IH1 IH2]. split; [done|].
      intros bound _ Hb. discriminate Hb.
Qed.

(** X28. A throttled function keeps its distance: with the events in the
    order of the clock, after an invocation that returned the next
    invocation comes at least [limit] milliseconds later; the calls made in
    between are dropped, not put off. *)
Theorem throttle_spaces_invocations (limit t0 : Z) (evs : list TimerEvent) (w : W) :
  in_order t0 evs ->
  spaced limit (snd (throttle_run func limit evs throttle_initial w)).
Proof.
  intros Hord.
  by destruct (throttle_run_spaced limit evs t0 throttle_initial w Hord).
Qed.

Lemma debounce_calls_only (wait : Z) (calls : list (Z * list JsValue)) :
  forall (st : DebounceState) (w : W) (c : Z * list JsValue),
    debounce_run func wait (calls_of (calls ++ [c])) st w
      = (Some (fst c + wait, snd c), w, []).
Proof.
  induction calls as [|c0 rest IH]; intros st w c; simpl; [done|].
  by rewrite IH.
Qed.

Lemma debounce_run_app (wait : Z) (evs1 evs2 : list TimerEvent) :
  forall (st : DebounceState) (w : W),
    debounce_run func wait (evs1 ++ evs2) st w
      = let '(st1, w1, log1) := debounce_run func wait evs1 st w in
        let '(st2, w2, log2) := debounce_run func wait evs2 st1 w1 in
        (st2, w2, (log1 ++ log2)%list).
Proof.
  induction evs1 as [|ev rest IH]; intros st w; simpl.
  - by destruct (debounce_run func wait evs2 st w) as [[st2 w2] log2].
  - destruct (debounce_step func wait ev st w) as [[st1 w1] log1].
    rewrite IH.
    destruct (debounce_run func wait rest st1 w1) as [[st2 w2] log2].
    destruct (debounce_run func wait evs2 st2 w2) as [[st3 w3] log3].
    by rewrite app_assoc.
Qed.

(** X29. In a burst of calls to a debounced function only the last one
    counts: when a timer callback runs after the burst, the function is
    invoked once, with the arguments of the last call, provided [wait]
    milliseconds have passed since that call; otherwise it is not invoked. *)
Theorem debounce_last_call_wins (wait t : Z) (calls : list (Z * list JsValue))
    (last_call : Z * list JsValue) (st : DebounceState) (w : W) :
  snd (debounce_run func wait
         (calls_of (calls ++ [last_call]) ++ [TimerRuns t]) st w)
    = if Z.leb (fst last_call + wait) t then [(t, snd last_call)] else [].
Proof.
  rewrite debounce_run_app, debounce_calls_only. simpl.
  by destruct (Z.leb (fst last_call + wait) t).
Qed.

End TimerClaims.

(** ** Witnesses of the statements above *)

Lemma sweep_is_unobservable_witness :
  step (plain 2 10) (at_time 5) (cleanup 3 two_keys)
    = step (plain 2 10) (at_time 5) two_keys /\
  (forall args ls now, 3 <= now ->
     getRemainingTime (plain 2 10) args ls now (cleanup 3 two_keys)
       = getRemainingTime (plain 2 10) args ls now two_keys /\
     getRemainingRequests (plain 2 10) args ls now (cleanup 3 two_keys)
       = getRemainingRequests (plain 2 10) args ls now two_keys).
Proof.
  apply (sweep_is_unobservable (plain 2 10) 3 (at_time 5) two_keys).
  simpl. lia.
Defined.

Lemma other_keys_do_not_interfere_witness :
  fst (step by_first_argument (call_for "a" 5)
         (snd (step by_first_argument (call_for "b" 3) ∅)))
    = fst (step by_first_argument (call_for "a" 5) ∅) /\
  snd (step by_first_argument (call_for "a" 5)
         (snd (step by_first_argument (call_for "b" 3) ∅))) !! "a"
    = snd (step by_first_argument (call_for "a" 5) ∅) !! "a".
Proof.
  apply (other_keys_do_not_interfere by_first_argument "a"
           (call_for "a" 5) (call_for "b" 3) ∅).
  - reflexivity.
  - reflexivity.
  - simpl. lia.
Defined.

Lemma limiter_entries_stay_bounded_witness :
  1 <= count (mkEntry 2 10) <= maxRequests (plain 2 10) /\
  resetTime (mkEntry 2 10) <= clock_after 0 two_calls + windowMs (plain 2 10).
Proof.
  apply (limiter_entries_stay_bounded (plain 2 10) two_calls 0 "default"
           (mkEntry 2 10)).
  - simpl. lia.
  - simpl. lia.
  - vm_compute. reflexivity.
Defined.

Lemma readouts_stay_in_range_witness :
  (forall r, getRemainingTime (plain 2 10) [] ∅ 7
               (snd (run (plain 2 10) two_calls ∅)) = Resolved r ->
     0 <= r <= windowMs (plain 2 10)) /\
  (forall q, getRemainingRequests (plain 2 10) [] ∅ 7
               (snd (run (plain 2 10) two_calls ∅)) = Resolved q ->
     0 <= q <= maxRequests (plain 2 10)).
Proof.
  apply (readouts_stay_in_range (plain 2 10) two_calls 0 7 [] ∅).
  - simpl. lia.
  - simpl. lia.
  - simpl. lia.
  - simpl. lia.
Defined.

Lemma no_requests_left_iff_refused_witness :
  getRemainingRequests (plain 1 10000) [] ∅ 3 one_used = Resolved 0 <->
  fst (isAllowed (plain 1 10000) [] ∅ 3 3 one_used) = Resolved false.
Proof.
  apply (no_requests_left_iff_refused (plain 1 10000) [] ∅ 3 one_used).
  simpl. lia.
Defined.

Lemma readouts_during_window_witness :
  getRemainingRequests (plain 2 10) [] ∅ 7
      (snd (run (plain 2 10) (at_time 0 :: [at_time 5]) ∅))
    = Resolved (if 7 >? c_now (at_time 0) + windowMs (plain 2 10)
                then maxRequests (plain 2 10)
                else maxRequests (plain 2 10)
                     - Z.of_nat (length (at_time 0 :: [at_time 5]))) /\
  getRemainingTime (plain 2 10) [] ∅ 7
      (snd (run (plain 2 10) (at_time 0 :: [at_time 5]) ∅))
    = Resolved (if 7 >? c_now (at_time 0) + windowMs (plain 2 10) then 0
                else c_now (at_time 0) + windowMs (plain 2 10) - 7).
Proof.
  apply (readouts_during_window (plain 2 10) "default" (at_time 0) [at_time 5]
           ∅ [] ∅ 7).
  - simpl. lia.
  - reflexivity.
  - exact I.
  - repeat constructor; simpl; lia.
  - reflexivity.
Defined.

Lemma hook_uses_a_request_witness :
  fst (useRateLimit (plain 2 10) (at_time 5) 6 7 one_call_made)
    = Resolved
        (if count (mkEntry 1 10) >=? maxRequests (plain 2 10)
         then mkView false (resetTime (mkEntry 1 10) - 6) 0
                     (ceil_seconds (resetTime (mkEntry 1 10) - 6))
         else mkView true (resetTime (mkEntry 1 10) - 6)
                     (maxRequests (plain 2 10) - (count (mkEntry 1 10) + 1))
                     (ceil_seconds (resetTime (mkEntry 1 10) - 6))).
Proof.
  apply (hook_uses_a_request (plain 2 10) "default" (at_time 5) 6 7
           one_call_made (mkEntry 1 10)).
  - reflexivity.
  - vm_compute. reflexivity.
  - simpl. lia.
  - simpl. lia.
  - simpl. lia.
  - simpl. lia.
Defined.

Lemma retry_with_backoff_schedule_witness :
  let '(r, _, tr) := retryWithBackoff fails_numbered 3 100 no_jitter 0%nat in
  (1 <= invocations tr <= Z.to_nat 3)%nat /\
  sleeps tr
    = List.map (fun i => backoff_delay 100 i (no_jitter i))
               (attempts_from 1 (invocations tr - 1)) /\
  forall t, r = Rejected t ->
    invocations tr = Z.to_nat 3 /\ exists e, t = ThrownBy e.
Proof.
  apply (retry_with_backoff_schedule fails_numbered 3 100 no_jitter 0%nat).
  lia.
Defined.

Lemma no_jitter_in_range (i : Z) :
  Qle (inject_Z 0) (no_jitter i) /\ Qlt (no_jitter i) (inject_Z 1).
Proof. split; [apply Qle_refl | reflexivity]. Qed.

Lemma backoff_waits_in_range_witness :
  Forall (fun d => exists i, 1 <= i < 3 /\
                     Qle (inject_Z (100 * 2 ^ (i - 1))) d /\
                     Qlt d (inject_Z (100 * 2 ^ (i - 1) + 1000)))
         (sleeps (snd (retryWithBackoff fails_numbered 3 100 no_jitter 0%nat))).
Proof.
  apply (backoff_waits_in_range fails_numbered 3 100 no_jitter 0%nat).
  - lia.
  - exact no_jitter_in_range.
Defined.

Lemma withRetry_waits_are_linear_witness :
  let tr := snd (withRetry unavailable 3 1000 JsUndefined 0%nat ∅) in
  sleeps tr = List.map (fun i => inject_Z (1000 * i))
                       (attempts_from 1 (invocations tr - 1)).
Proof.
  apply (withRetry_waits_are_linear unavailable 3 1000 JsUndefined 0%nat ∅).
  lia.
Defined.

Lemma withRetry_without_attempts_witness :
  withRetry unavailable 0 1000 JsUndefined 0%nat session
    = (Rejected ThrownUndefined, 0%nat, session, []).
Proof.
  apply (withRetry_without_attempts unavailable 0 1000 JsUndefined 0%nat session).
  lia.
Defined.

Lemma withRetry_clears_session_on_401_only_witness :
  let '(r, _, ls', _) := withRetry unauthorized 3 1000 JsUndefined 0%nat session in
  match r with
  | Rejected (ThrownBy e) =>
      ls' = match err_class e with
            | AuthenticationErrorClass => clear_session session
            | _ => session
            end
  | _ => ls' = session
  end.
Proof.
  apply (withRetry_clears_session_on_401_only unauthorized 3 1000 JsUndefined
           0%nat session).
  lia.
Defined.

Lemma breaker_stays_in_order_witness :
  let cb' := snd (fst (execute_all five_failures apiCircuitBreaker 0%nat)) in
  breaker_ok cb' /\
  (state cb' = OPEN <-> threshold cb' <= failureCount cb') /\
  threshold cb' = threshold apiCircuitBreaker /\
  resetTimeout cb' = resetTimeout apiCircuitBreaker.
Proof.
  apply (breaker_stays_in_order five_failures apiCircuitBreaker 0%nat).
  unfold breaker_ok. simpl. lia.
Defined.

Lemma breaker_stays_closed_below_threshold_witness :
  let cb' := snd (fst (execute_all two_failures apiCircuitBreaker 0%nat)) in
  state cb' = CLOSED /\
  failureCount cb'
    = failureCount apiCircuitBreaker + Z.of_nat (length two_failures) /\
  Forall (fun r => exists e, r = Rejected (ThrownBy e))
         (fst (fst (execute_all two_failures apiCircuitBreaker 0%nat))).
Proof.
  apply (breaker_stays_closed_below_threshold two_failures apiCircuitBreaker 0%nat).
  - reflexivity.
  - simpl. lia.
  - repeat constructor.
Defined.

Lemma open_breaker_blocks_every_call_witness :
  execute_all two_early_calls tripped 5%nat
    = (repeat (Rejected (ThrownError circuit_open_message))
              (length two_early_calls), tripped, 5%nat).
Proof.
  apply (open_breaker_blocks_every_call two_early_calls tripped 5%nat).
  - reflexivity.
  - repeat constructor; simpl; lia.
Defined.

Lemma bulk_form_carries_every_pdf_witness :
  exists form,
    bulk_form (JsObject [("department", JsString "HR"); ("csvFile", JsObject []);
                         ("pdfFiles", JsArray [JsString "a"; JsString "b"])])
      = Resolved form /\
    pdf_parts form = [JsString "a"; JsString "b"] /\
    length (List.filter is_document_field form)
      = Nat.min 1 (length [JsString "a"; JsString "b"]) /\
    length form = (4 + length [JsString "a"; JsString "b"])%nat.
Proof.
  apply (bulk_form_carries_every_pdf
           [("department", JsString "HR"); ("csvFile", JsObject []);
            ("pdfFiles", JsArray [JsString "a"; JsString "b"])]
           [JsString "a"; JsString "b"]).
  reflexivity.
Defined.

Lemma bulk_sends_share_quota_witness :
  let '(_, m1, st1, _) :=
    bulk_send parse_stored_user true post_ok no_jitter (bulk_call 0) 0 ∅
              (0%nat, []) in
  let '(_, m2, st2, _) :=
    bulk_send parse_stored_user false post_ok no_jitter (bulk_call 10) 10 m1 st1 in
  let '(_, m3, st3, _) :=
    bulk_send parse_stored_user true post_ok no_jitter (bulk_call 20) 20 m2 st2 in
  let '(r4, _, st4, tr4) :=
    bulk_send parse_stored_user false post_ok no_jitter (bulk_call 30) 30 m3 st3 in
  (exists seconds,
     r4 = Rejected (ThrownError (rate_limit_message bulk_message_text seconds))) /\
  st4 = st3 /\ tr4 = [].
Proof.
  apply (bulk_sends_share_quota parse_stored_user post_ok no_jitter
           "u1-file-upload" (bulk_call 0) (bulk_call 10) (bulk_call 20)
           (bulk_call 30) 0 10 20 30 true false true false ∅ (0%nat, [])).
  - vm_compute. reflexivity.
  - exact I.
  - repeat constructor; try (simpl; lia); vm_compute; reflexivity.
Defined.

Lemma unauthorized_clears_session_even_at_login_witness :
  let '(thrown, ls', redirect) :=
    response_interceptor parse_stored_user upper_string "2026-01-05T10:30:00.000Z"
                         "https://console.example/login" login_failure session in
  forall e, thrown = ThrownBy e ->
    err_class e = AuthenticationErrorClass /\
    ls' = clear_session session /\
    (redirect = None <-> url_has (f_url login_failure) "/auth/login" = true).
Proof.
  apply (unauthorized_clears_session_even_at_login parse_stored_user upper_string
           "2026-01-05T10:30:00.000Z" "https://console.example/login"
           login_failure session);
    reflexivity.
Defined.

Lemma interceptor_fails_on_unreadable_user_witness :
  response_interceptor parse_stored_user upper_string "2026-01-05T10:30:00.000Z"
                       "https://console.example/" login_failure unreadable
    = (ThrownExn SyntaxError, unreadable, None).
Proof.
  apply (interceptor_fails_on_unreadable_user parse_stored_user upper_string
           "2026-01-05T10:30:00.000Z" "https://console.example/"
           login_failure unreadable "not json" SyntaxError).
  - vm_compute. reflexivity.
  - discriminate.
  - reflexivity.
Defined.

Lemma draw_first_in_range (i : nat) :
  Qle (inject_Z 0) (draw_first i) /\ Qlt (draw_first i) (inject_Z 1).
Proof. split; [apply Qle_refl | reflexivity]. Qed.

Lemma captcha_mount_reports_valid_first_witness :
  mount upper_string draw_first
    = (mkCaptcha (generateCaptcha draw_first) "" false "", [true; false]).
Proof.
  apply (captcha_mount_reports_valid_first upper_string draw_first).
  exact draw_first_in_range.
Defined.

Lemma phone_valid_iff_witness :
  let cleaned := keep_digits "+91 98765 43210" in
  (vr_isValid (validatePhoneNumber "+91 98765 43210") = true <->
     String.length cleaned = 10%nat \/
     (String.length cleaned = 12%nat /\
      exists rest, cleaned = String "9" (String "1" rest))) /\
  vr_sanitizedValue (validatePhoneNumber "+91 98765 43210") = JsString cleaned /\
  all_chars is_digit cleaned = true.
Proof.
  apply (phone_valid_iff "+91 98765 43210"). discriminate.
Defined.

Lemma throttle_spaces_invocations_witness :
  spaced 100 (snd (throttle_run unit_fn 100 throttled_events throttle_initial 0%nat)).
Proof.
  apply (throttle_spaces_invocations unit_fn 100 0 throttled_events 0%nat).
  simpl. lia.
Defined.

(** The runs behind some of the statements, evaluated. *)
Example more_runs :
  snd (throttle_run unit_fn 100 throttled_events throttle_initial 0%nat)
    = [(0, true); (120, true)] /\
  snd (debounce_run unit_fn 300
         [Called 0 [JsString "a"]; Called 100 [JsString "ab"]; TimerRuns 350;
          TimerRuns 400] None 0%nat)
    = [(400, [JsString "ab"])] /\
  vr_isValid (validatePhoneNumber "+91 98765 43210") = true /\
  vr_isValid (validatePhoneNumber "98765 432101") = false /\
  getErrorMessage (fst (handleApiError (with_status 503) JsUndefined ∅))
    = "Server error occurred. Please try again later." /\
  err_status (fst (handleApiError (with_status 422) JsUndefined ∅)) = 400.
Proof. repeat split. Qed.
